(** * RobotVision [transformations.h]: a shallow embedding over the reals

    The C++ header works on [double] values through TooN's fixed-size
    vectors and matrices.  Here a [double] is a real number (type [R]):
    every statement below is about the exact-arithmetic reading of the
    code, rounding is not modelled.  A for-loop over [uint i] is a fold
    over [List.seq]; a virtual method with a default body is a function
    that takes the pure-virtual methods it calls as arguments.

    TooN, maths_utils.h and Camera/linear_camera.h are not among the
    sources: what the header uses of them is modelled in the modules
    [TooN], [MathsUtils], [Lie] and [Camera].  [SE2_AbstractPoint::add]
    and [Sim3ConFun] rest on TooN's planar exponential map and on the
    group operations of sim3.h and are not embedded. *)

From Stdlib Require Import Reals Lra Psatz List Arith Lia RNsatz.
Import ListNotations.
Local Open Scope R_scope.

(** ** TooN: fixed-size vectors and matrices *)

Module TooN.

(** [TooN::Vector<N>] and [TooN::Matrix<R,C>] hold their entries in place;
    a matrix is stored row by row, [M[i]] is row [i] and [M.T()[j]] is
    column [j]. *)
Fixpoint vec (A : Type) (n : nat) : Type :=
  match n with
  | O => unit
  | S k => (A * vec A k)%type
  end.

Definition Vector (n : nat) : Type := vec R n.
Definition Matrix (r c : nat) : Type := vec (Vector c) r.

Fixpoint vconst {A : Type} (a : A) (n : nat) : vec A n :=
  match n with
  | O => tt
  | S k => (a, vconst a k)
  end.

Fixpoint vbuild {A : Type} (n : nat) : (nat -> A) -> vec A n :=
  match n with
  | O => fun _ => tt
  | S k => fun f => (f O, vbuild k (fun i => f (S i)))
  end.

(** Indexing; the source never indexes out of range, where [vnth] gives
    the default and [vset] leaves the vector as it is. *)
Fixpoint vnth {A : Type} (d : A) {n : nat} : vec A n -> nat -> A :=
  match n with
  | O => fun _ _ => d
  | S k => fun v i =>
      match i with
      | O => fst v
      | S j => vnth d (snd v) j
      end
  end.

Fixpoint vset {A : Type} {n : nat} : vec A n -> nat -> A -> vec A n :=
  match n with
  | O => fun v _ _ => v
  | S k => fun v i a =>
      match i with
      | O => (a, snd v)
      | S j => (fst v, vset (snd v) j a)
      end
  end.

Fixpoint vmap {A B : Type} (f : A -> B) {n : nat} : vec A n -> vec B n :=
  match n with
  | O => fun _ => tt
  | S k => fun v => (f (fst v), vmap f (snd v))
  end.

Fixpoint vmap2 {A B C : Type} (f : A -> B -> C) {n : nat}
  : vec A n -> vec B n -> vec C n :=
  match n with
  | O => fun _ _ => tt
  | S k => fun v w => (f (fst v) (fst w), vmap2 f (snd v) (snd w))
  end.

Fixpoint vsum {n : nat} : Vector n -> R :=
  match n with
  | O => fun _ => 0
  | S k => fun v => fst v + vsum (snd v)
  end.

(** [TooN::Zeros], [TooN::Identity]. *)
Definition Zeros {n : nat} : Vector n := vconst 0 n.
Definition mZeros {r c : nat} : Matrix r c := vconst Zeros r.
Definition Identity {n : nat} : Matrix n n :=
  vbuild n (fun i => vbuild n (fun j => if Nat.eqb i j then 1 else 0)).

(** Entry access [v[i]] and [M(i,j)]. *)
Definition at_ {n : nat} (v : Vector n) (i : nat) : R := vnth 0 v i.
Definition row {r c : nat} (M : Matrix r c) (i : nat) : Vector c :=
  vnth Zeros M i.
Definition entry {r c : nat} (M : Matrix r c) (i j : nat) : R :=
  at_ (row M i) j.

Definition mbuild (r c : nat) (f : nat -> nat -> R) : Matrix r c :=
  vbuild r (fun i => vbuild c (fun j => f i j)).

(** [M.T()], a column [M.T()[j]], and the assignment [M.T()[j] = v]. *)
Definition T {r c : nat} (M : Matrix r c) : Matrix c r :=
  mbuild c r (fun j i => entry M i j).
Definition col {r c : nat} (M : Matrix r c) (j : nat) : Vector r :=
  vbuild r (fun i => entry M i j).
Definition set_col {r c : nat} (M : Matrix r c) (j : nat) (v : Vector r)
  : Matrix r c :=
  vmap2 (fun Mi vi => vset Mi j vi) M v.
Definition set_row {r c : nat} (M : Matrix r c) (i : nat) (v : Vector c)
  : Matrix r c :=
  vset M i v.

(** Arithmetic on vectors. *)
Definition vadd {n : nat} (v w : Vector n) : Vector n := vmap2 Rplus v w.
Definition vsub {n : nat} (v w : Vector n) : Vector n := vmap2 Rminus v w.
Definition vneg {n : nat} (v : Vector n) : Vector n := vmap Ropp v.
Definition vscale {n : nat} (a : R) (v : Vector n) : Vector n :=
  vmap (Rmult a) v.
Definition vdiv {n : nat} (v : Vector n) (a : R) : Vector n :=
  vmap (fun x => x / a) v.
Definition dot {n : nat} (v w : Vector n) : R := vsum (vmap2 Rmult v w).

(** Arithmetic on matrices. *)
Definition madd {r c : nat} (A B : Matrix r c) : Matrix r c :=
  vmap2 vadd A B.
Definition msub {r c : nat} (A B : Matrix r c) : Matrix r c :=
  vmap2 vsub A B.
Definition mneg {r c : nat} (A : Matrix r c) : Matrix r c := vmap vneg A.
Definition mscale {r c : nat} (a : R) (A : Matrix r c) : Matrix r c :=
  vmap (vscale a) A.
Definition mmul {r k c : nat} (A : Matrix r k) (B : Matrix k c)
  : Matrix r c :=
  mbuild r c (fun i j => dot (row A i) (col B j)).
Definition mvmul {r c : nat} (A : Matrix r c) (v : Vector c) : Vector r :=
  vmap (fun Ai => dot Ai v) A.

(** [v.as_col()] and [v.as_row()]. *)
Definition as_col {n : nat} (v : Vector n) : Matrix n 1 :=
  vmap (fun x => (x, tt)) v.
Definition as_row {n : nat} (v : Vector n) : Matrix 1 n := (v, tt).

(** Slices: [v.slice<s,l>()] read and assigned, [M.slice<i,j,r,c>()]
    assigned. *)
Definition slice (s l : nat) {n : nat} (v : Vector n) : Vector l :=
  vbuild l (fun i => at_ v (s + i)).
Definition set_slice (s : nat) {l n : nat} (v : Vector n) (w : Vector l)
  : Vector n :=
  List.fold_left (fun acc i => vset acc (s + i) (at_ w i)) (List.seq 0 l) v.
Definition set_block (i0 j0 : nat) {r c rr cc : nat}
  (J : Matrix rr cc) (B : Matrix r c) : Matrix rr cc :=
  List.fold_left
    (fun acc i => vset acc (i0 + i) (set_slice j0 (row acc (i0 + i)) (row B i)))
    (List.seq 0 r) J.

(** [TooN::makeVector]. *)
Definition makeVector2 (a b : R) : Vector 2 := (a, (b, tt)).
Definition makeVector3 (a b c : R) : Vector 3 := (a, (b, (c, tt))).
Definition makeVector6 (a b c d e f : R) : Vector 6 :=
  (a, (b, (c, (d, (e, (f, tt)))))).

(** [TooN::project]: divide by the last coordinate and drop it. *)
Definition project3 (v : Vector 3) : Vector 2 :=
  makeVector2 (at_ v 0 / at_ v 2) (at_ v 1 / at_ v 2).
Definition project2 (v : Vector 2) : Vector 1 := (at_ v 0 / at_ v 1, tt).

End TooN.

Import TooN.

Declare Scope toon_scope.
Delimit Scope toon_scope with toon.
Notation "A *m B" := (mmul A B) (at level 40, left associativity) : toon_scope.
Notation "A *v x" := (mvmul A x) (at level 40, left associativity) : toon_scope.
Notation "a *s v" := (vscale a v) (at level 40, left associativity) : toon_scope.
Notation "a *: A" := (mscale a A) (at level 40, left associativity) : toon_scope.
Notation "v +v w" := (vadd v w) (at level 50, left associativity) : toon_scope.
Notation "v -v w" := (vsub v w) (at level 50, left associativity) : toon_scope.
Notation "A +m B" := (madd A B) (at level 50, left associativity) : toon_scope.
Notation "A -m B" := (msub A B) (at level 50, left associativity) : toon_scope.
Local Open Scope toon_scope.

(** ** maths_utils.h *)

Module MathsUtils.

(** Modelled from the spec: [Po2] and [Po3] of maths_utils.h (not among
    the sources): square and cube. *)
Definition Po2 (x : R) : R := x * x.
Definition Po3 (x : R) : R := x * x * x.

(** Modelled from the spec: [skew] of maths_utils.h, the "cross product ->
    skew matrix" helper: [skew v * x] is the cross product of [v] and
    [x]. *)
Definition skew (v : Vector 3) : Matrix 3 3 :=
  let a := at_ v 0 in
  let b := at_ v 1 in
  let c := at_ v 2 in
  ( makeVector3 0 (- c) b,
  ( makeVector3 c 0 (- a),
  ( makeVector3 (- b) a 0, tt))).

(** Modelled from the spec: [deltaR] of maths_utils.h, "vee(R - R^T)": the
    vector of the three off-diagonal differences of [R], so that
    [skew (deltaR R) = R - R^T]. *)
Definition deltaR (R : Matrix 3 3) : Vector 3 :=
  makeVector3 (entry R 2 1 - entry R 1 2)
              (entry R 0 2 - entry R 2 0)
              (entry R 1 0 - entry R 0 1).

(** Modelled from the spec: [kron] of maths_utils.h, the Kronecker
    product. *)
Definition kron {r1 c1 r2 c2 : nat} (A : Matrix r1 c1) (B : Matrix r2 c2)
  : Matrix (r1 * r2) (c1 * c2) :=
  mbuild (r1 * r2) (c1 * c2)
    (fun i j => entry A (i / r2) (j / c2) * entry B (i mod r2) (j mod c2)).

End MathsUtils.

Import MathsUtils.

(** ** TooN: rotations and rigid transforms *)

Module Lie.

(** [TooN::SO3<>]: a wrapper around a 3x3 matrix.  TooN does not check
    that the matrix is a rotation; [is_rotation] below says so. *)
Record SO3 : Type := mkSO3 { get_matrix : Matrix 3 3 }.

(** [TooN::SE3<>]: a rotation and a translation. *)
Record SE3 : Type := mkSE3 {
  get_rotation : SO3;
  get_translation : Vector 3
}.

Definition det3 (M : Matrix 3 3) : R :=
  entry M 0 0 * (entry M 1 1 * entry M 2 2 - entry M 1 2 * entry M 2 1)
  - entry M 0 1 * (entry M 1 0 * entry M 2 2 - entry M 1 2 * entry M 2 0)
  + entry M 0 2 * (entry M 1 0 * entry M 2 1 - entry M 1 1 * entry M 2 0).

(** The values the optimiser hands over: orthonormal, determinant one. *)
Definition is_rotation (M : Matrix 3 3) : Prop :=
  T M *m M = Identity /\ det3 M = 1.
Definition is_rigid (X : SE3) : Prop :=
  is_rotation (get_matrix (get_rotation X)).

(** Modelled from the spec: composition and inverse of TooN's groups (the
    transform library is not among the sources): [(R1,t1)*(R2,t2) =
    (R1*R2, t1 + R1*t2)], and the inverse of a rotation is its
    transpose. *)
Definition SO3_mul (A B : SO3) : SO3 :=
  mkSO3 (get_matrix A *m get_matrix B).
Definition SO3_act (A : SO3) (x : Vector 3) : Vector 3 :=
  get_matrix A *v x.
Definition SO3_inverse (A : SO3) : SO3 := mkSO3 (T (get_matrix A)).
Definition SE3_mul (A B : SE3) : SE3 :=
  mkSE3 (SO3_mul (get_rotation A) (get_rotation B))
        (get_translation A +v SO3_act (get_rotation A) (get_translation B)).
Definition SE3_inverse (A : SE3) : SE3 :=
  let Rinv := SO3_inverse (get_rotation A) in
  mkSE3 Rinv (vneg (SO3_act Rinv (get_translation A))).
Definition SE3_identity : SE3 := mkSE3 (mkSO3 Identity) Zeros.

(** [TooN::SO2<>] and [TooN::SE2<>]: a 2x2 matrix, and a planar rotation
    with a translation.  Modelled from the spec: a rotation acts on a
    vector by the matrix product. *)
Record SO2 : Type := mkSO2 { SO2_get_matrix : Matrix 2 2 }.
Record SE2 : Type := mkSE2 {
  SE2_get_rotation : SO2;
  SE2_get_translation : Vector 2
}.
Definition SO2_act (A : SO2) (x : Vector 2) : Vector 2 :=
  SO2_get_matrix A *v x.

(** Modelled from the spec: the constructor [TooN::SO3<>(omega)], the
    exponential map of the rotation group (Rodrigues' formula), with
    [theta] the norm of [omega]. *)
Definition SO3_exp (omega : Vector 3) : SO3 :=
  let Omega := skew omega in
  let theta := sqrt (dot omega omega) in
  if Req_dec_T theta 0 then mkSO3 Identity
  else mkSO3 (Identity
              +m (sin theta / theta) *: Omega
              +m ((1 - cos theta) / (theta * theta)) *: (Omega *m Omega)).

(** Modelled from the spec: the constructor [TooN::SE3<>(delta)], the
    exponential map of the rigid-transform group.  The translational part
    of [delta] is in components 0-2 and the rotational part in components
    3-5, the layout that [first_trans_id], [first_rot_id] and
    [SO3xR3ConFun::add] of the source state. *)
Definition SE3_exp (delta : Vector 6) : SE3 :=
  let u := slice 0 3 delta in
  let omega := slice 3 3 delta in
  let Omega := skew omega in
  let theta := sqrt (dot omega omega) in
  let V :=
    if Req_dec_T theta 0 then Identity
    else Identity
         +m ((1 - cos theta) / (theta * theta)) *: Omega
         +m ((theta - sin theta) / (theta * theta * theta)) *: (Omega *m Omega)
  in
  mkSE3 (SO3_exp omega) (V *v u).

End Lie.

Import Lie.
Notation "A *T B" := (SE3_mul A B) (at level 40, left associativity)
  : toon_scope.

(** ** Camera/linear_camera.h *)

Module Camera.

(** Modelled from the spec: [LinearCamera] (not among the sources), "the
    linear/affine camera mapping" with a "constant Jacobian": [map] is
    [p |-> A*p + b] and [jacobian] is [A]. *)
Record LinearCamera : Type := mkLinearCamera {
  cam_A : Matrix 2 2;
  cam_b : Vector 2
}.
Definition cam_map (cam : LinearCamera) (p : Vector 2) : Vector 2 :=
  cam_A cam *v p +v cam_b cam.
Definition jacobian (cam : LinearCamera) : Matrix 2 2 := cam_A cam.

End Camera.

Import Camera.

(** ** namespace RobotVision *)

Module RobotVision.

(** [transform(const SE3&, const Vector<3>&)]. *)
Definition transform (X : SE3) (x : Vector 3) : Vector 3 :=
  SO3_act (get_rotation X) x +v get_translation X.

(** Modelled from the spec: [RobotVision::Sim3<>], a similarity transform
    with its rotation, translation and scale accessors (sim3.h is not
    among the sources). *)
Record Sim3 : Type := mkSim3 {
  Sim3_get_rotation : SO3;
  Sim3_get_translation : Vector 3;
  Sim3_get_scale : R
}.

(** [transform(const Sim3&, const Vector<3>&)]. *)
Definition transform_Sim3 (X : Sim3) (x : Vector 3) : Vector 3 :=
  Sim3_get_scale X *s SO3_act (Sim3_get_rotation X) x
  +v Sim3_get_translation X.

(** *** AbstractPrediction

    The class template with its pure-virtual methods [map] and the two
    [add] overloads, and the virtual methods [frameJac] and [pointJac]
    that a subclass overrides or inherits. *)
Class AbstractPrediction (Frame : Type)
  (FrameDoF PointParNum PointDoF ObsDim : nat) : Type := {
  map : Frame -> Vector PointParNum -> Vector ObsDim;
  frameJac : Frame -> Vector PointParNum -> Matrix ObsDim FrameDoF;
  pointJac : Frame -> Vector PointParNum -> Matrix ObsDim PointDoF;
  add : Frame -> Vector FrameDoF -> Frame;
  add_point : Vector PointParNum -> Vector PointDoF -> Vector PointParNum;
  first_rot_id : nat;
  num_rot_pars : nat;
  first_trans_id : nat;
  num_trans_pars : nat
}.

Section AbstractPrediction_defaults.

Context {Frame : Type} {FrameDoF PointParNum PointDoF ObsDim : nat}.
Variable map_ : Frame -> Vector PointParNum -> Vector ObsDim.
Variable add_ : Frame -> Vector FrameDoF -> Frame.
Variable add_point_ :
  Vector PointParNum -> Vector PointDoF -> Vector PointParNum.

(** [AbstractPrediction::frameJac], the default body. *)
Definition AbstractPrediction_frameJac
  (X : Frame) (x : Vector PointParNum) : Matrix ObsDim FrameDoF :=
  let h := 0.000000000001 in
  let J_pose : Matrix ObsDim FrameDoF := mZeros in
  let fun_ := map_ X x in
  List.fold_left
    (fun J_pose i =>
       let eps := vset (@Zeros FrameDoF) i h in
       set_col J_pose i (vdiv (map_ (add_ X eps) x -v fun_) h))
    (List.seq 0 FrameDoF) J_pose.

(** [AbstractPrediction::pointJac], the default body. *)
Definition AbstractPrediction_pointJac
  (X : Frame) (x : Vector PointParNum) : Matrix ObsDim PointDoF :=
  let h := 0.000000000001 in
  let J_x : Matrix ObsDim PointDoF := mZeros in
  let fun_ := map_ X x in
  List.fold_left
    (fun J_x i =>
       let eps := vset (@Zeros PointDoF) i h in
       set_col J_x i (vdiv (map_ X (add_point_ x eps) -v fun_) h))
    (List.seq 0 PointDoF) J_x.

End AbstractPrediction_defaults.

(** [SE3_AbstractPoint::add]. *)
Definition SE3_AbstractPoint_add (X : SE3) (delta : Vector 6) : SE3 :=
  SE3_exp delta *T X.

(** *** SE2XY: 2D bearing-only prediction

    [SE2_AbstractPoint::add] goes through TooN's planar exponential map,
    which is not among the sources; the class's own [map] and point
    [add] are below. *)

Definition SE2XY_map (X : SE2) (x : Vector 2) : Vector 1 :=
  project2 (SO2_act (SE2_get_rotation X) x +v SE2_get_translation X).

Definition SE2XY_add (p delta : Vector 2) : Vector 2 := p +v delta.

(** *** SE3XYZ: 3D Euclidean points *)

Definition SE3XYZ_map (cam_pars : LinearCamera) (X : SE3) (x : Vector 3)
  : Vector 2 :=
  cam_map cam_pars (project3 (transform X x)).

Definition SE3XYZ_frameJac (cam_pars : LinearCamera) (X : SE3)
  (xyz : Vector 3) : Matrix 2 6 :=
  let xyz_trans := SO3_act (get_rotation X) xyz +v get_translation X in
  let x := at_ xyz_trans 0 in
  let y := at_ xyz_trans 1 in
  let z := at_ xyz_trans 2 in
  let z_2 := Po2 z in
  let J_frame : Matrix 2 6 :=
    ( makeVector6 (1 / z) 0 (- x / z_2) (- x * y / z_2)
                  (1 + Po2 x / z_2) (- y / z),
    ( makeVector6 0 (1 / z) (- y / z_2) (- (1 + Po2 y / z_2))
                  (x * y / z_2) (x / z), tt)) in
  jacobian cam_pars *m J_frame.

Definition SE3XYZ_pointJac (cam_pars : LinearCamera) (X : SE3)
  (xyz : Vector 3) : Matrix 2 3 :=
  let xyz_trans := SO3_act (get_rotation X) xyz +v get_translation X in
  let x := at_ xyz_trans 0 in
  let y := at_ xyz_trans 1 in
  let z := at_ xyz_trans 2 in
  let tmp : Matrix 2 3 :=
    ( makeVector3 1 0 (- x / z),
    ( makeVector3 0 1 (- y / z), tt)) in
  let J_x := (1 / z) *: tmp *m get_matrix (get_rotation X) in
  jacobian cam_pars *m J_x.

Definition SE3XYZ_add (x delta : Vector 3) : Vector 3 := x +v delta.

#[export] Instance SE3XYZ (cam_pars : LinearCamera)
  : AbstractPrediction SE3 6 3 3 2 := {|
  map := SE3XYZ_map cam_pars;
  frameJac := SE3XYZ_frameJac cam_pars;
  pointJac := SE3XYZ_pointJac cam_pars;
  add := SE3_AbstractPoint_add;
  add_point := SE3XYZ_add;
  first_rot_id := 3;
  num_rot_pars := 3;
  first_trans_id := 0;
  num_trans_pars := 3
|}.

(** *** SE3UVQ: 3D inverse-depth points *)

Definition SE3UVQ_map (cam_pars : LinearCamera) (X : SE3) (uvq : Vector 3)
  : Vector 2 :=
  let x := (1 / at_ uvq 2) *s makeVector3 (at_ uvq 0) (at_ uvq 1) 1 in
  cam_map cam_pars
    (project3 (SO3_act (get_rotation X) x +v get_translation X)).

Definition SE3UVQ_frameJac (cam_pars : LinearCamera) (X : SE3)
  (uvq : Vector 3) : Matrix 2 6 :=
  let xyz := (1 / at_ uvq 2) *s makeVector3 (at_ uvq 0) (at_ uvq 1) 1 in
  let xyz_trans := SO3_act (get_rotation X) xyz +v get_translation X in
  let x := at_ xyz_trans 0 in
  let y := at_ xyz_trans 1 in
  let z := at_ xyz_trans 2 in
  let z_2 := Po2 z in
  let J_frame : Matrix 2 6 :=
    ( makeVector6 (1 / z) 0 (- x / z_2) (- x * y / z_2)
                  (1 + Po2 x / z_2) (- y / z),
    ( makeVector6 0 (1 / z) (- y / z_2) (- (1 + Po2 y / z_2))
                  (x * y / z_2) (x / z), tt)) in
  jacobian cam_pars *m J_frame.

Definition SE3UVQ_pointJac (cam_pars : LinearCamera) (X : SE3)
  (uvq : Vector 3) : Matrix 2 3 :=
  let xyz := (1 / at_ uvq 2) *s makeVector3 (at_ uvq 0) (at_ uvq 1) 1 in
  let R := get_matrix (get_rotation X) in
  let xyz_trans := R *v xyz +v get_translation X in
  let x := at_ xyz_trans 0 in
  let y := at_ xyz_trans 1 in
  let z := at_ xyz_trans 2 in
  let R12t : Matrix 3 3 := mZeros in
  let R12t := set_col R12t 0 (col R 0) in
  let R12t := set_col R12t 1 (col R 1) in
  let R12t := set_col R12t 2 (get_translation X) in
  let tmp : Matrix 2 3 :=
    ( makeVector3 1 0 (- x / z),
    ( makeVector3 0 1 (- y / z), tt)) in
  let J_x := (1 / (z * at_ uvq 2)) *: tmp *m R12t in
  jacobian cam_pars *m J_x.

Definition SE3UVQ_add (x delta : Vector 3) : Vector 3 := x +v delta.

#[export] Instance SE3UVQ (cam_pars : LinearCamera)
  : AbstractPrediction SE3 6 3 3 2 := {|
  map := SE3UVQ_map cam_pars;
  frameJac := SE3UVQ_frameJac cam_pars;
  pointJac := SE3UVQ_pointJac cam_pars;
  add := SE3_AbstractPoint_add;
  add_point := SE3UVQ_add;
  first_rot_id := 3;
  num_rot_pars := 3;
  first_trans_id := 0;
  num_trans_pars := 3
|}.

(** *** Observations *)

Record IdObs (ObsDim : nat) : Type := mkIdObs {
  frame_id : Z;
  point_id : Z;
  obs : Vector ObsDim
}.
Arguments mkIdObs {ObsDim}.
Arguments frame_id {ObsDim}.
Arguments point_id {ObsDim}.
Arguments obs {ObsDim}.

(** [IdObs(int point_id, int frame_id, const Vector<ObsDim>& obs)]. *)
Definition IdObs_ctor {ObsDim : nat} (point_id_ frame_id_ : Z)
  (obs_ : Vector ObsDim) : IdObs ObsDim :=
  mkIdObs frame_id_ point_id_ obs_.

(** The member is declared [TooN::Matrix<2,2> lambda] whatever [ObsDim]
    is. *)
Record IdObsLambda (ObsDim : nat) : Type := mkIdObsLambda {
  base : IdObs ObsDim;
  lambda : Matrix 2 2
}.
Arguments mkIdObsLambda {ObsDim}.
Arguments base {ObsDim}.
Arguments lambda {ObsDim}.

(** Initialising a statically sized TooN matrix from another one copies
    the entries when the sizes agree and is rejected (TooN's static
    [SizeMismatch] test) when they do not. *)
Definition Matrix_copy {r c : nat} (r' c' : nat) (M : Matrix r c)
  : option (Matrix r' c') :=
  if (Nat.eqb r r' && Nat.eqb c c')%bool
  then Some (mbuild r' c' (fun i j => entry M i j))
  else None.

(** [IdObsLambda(point_id, frame_id, obs, lambda)]: the base-class
    constructor, then the member initialiser [lambda(lambda)]. *)
Definition IdObsLambda_ctor {ObsDim : nat} (point_id_ frame_id_ : Z)
  (obs_ : Vector ObsDim) (lambda_ : Matrix ObsDim ObsDim)
  : option (IdObsLambda ObsDim) :=
  match Matrix_copy 2 2 lambda_ with
  | Some l => Some (mkIdObsLambda (IdObs_ctor point_id_ frame_id_ obs_) l)
  | None => None
  end.

(** *** AbstractConFun *)

Class AbstractConFun (Trans : Type) (TransDoF : nat) : Type := {
  diff : Trans -> Trans -> Trans -> Vector TransDoF;
  d_diff_dT1 : Trans -> Trans -> Trans -> Matrix TransDoF TransDoF;
  d_diff_dT2 : Trans -> Trans -> Trans -> Matrix TransDoF TransDoF;
  con_add : Trans -> Vector TransDoF -> Trans
}.

Section AbstractConFun_defaults.

Context {Trans : Type} {TransDoF : nat}.
Variable diff_ : Trans -> Trans -> Trans -> Vector TransDoF.
Variable add_ : Trans -> Vector TransDoF -> Trans.

(** [AbstractConFun::d_diff_dT1], the default body. *)
Definition AbstractConFun_d_diff_dT1 (T1 C T2 : Trans)
  : Matrix TransDoF TransDoF :=
  let h := 0.000000000001 in
  let J : Matrix TransDoF TransDoF := mZeros in
  let fun_ := diff_ T1 C T2 in
  List.fold_left
    (fun J i =>
       let eps := vset (@Zeros TransDoF) i h in
       set_col J i (vdiv (diff_ (add_ T1 eps) C T2 -v fun_) h))
    (List.seq 0 TransDoF) J.

(** [AbstractConFun::d_diff_dT2], the default body. *)
Definition AbstractConFun_d_diff_dT2 (T1 C T2 : Trans)
  : Matrix TransDoF TransDoF :=
  let h := 0.000000000001 in
  let J : Matrix TransDoF TransDoF := mZeros in
  let fun_ := diff_ T1 C T2 in
  List.fold_left
    (fun J i =>
       let eps := vset (@Zeros TransDoF) i h in
       set_col J i (vdiv (diff_ T1 C (add_ T2 eps) -v fun_) h))
    (List.seq 0 TransDoF) J.

End AbstractConFun_defaults.

(** *** namespace SE3Helper *)

Module SE3Helper.

(** [ln_so3]: logarithm of a rotation matrix. *)
Definition ln_so3 (R : Matrix 3 3) : Vector 3 :=
  let d := 0.5 * (entry R 0 0 + entry R 1 1 + entry R 2 2 - 1) in
  if Rlt_dec 0.99999 d then
    0.5 *s deltaR R
  else
    let theta := acos d in
    (theta / (2 * sqrt (1 - d * d))) *s deltaR R.

(** [ln_so3xR3]: rotation logarithm in 0-2, translation in 3-5. *)
Definition ln_so3xR3 (X : SE3) : Vector 6 :=
  let res : Vector 6 := Zeros in
  let res := set_slice 0 res (ln_so3 (get_matrix (get_rotation X))) in
  let res := set_slice 3 res (get_translation X) in
  res.

(** [ln]: logarithm of a rigid transform given as [(R, t)]. *)
Definition ln (R : Matrix 3 3) (t : Vector 3) : Vector 6 :=
  let v : Vector 6 := Zeros in
  let d := 0.5 * (entry R 0 0 + entry R 1 1 + entry R 2 2 - 1) in
  let '(omega, V_inv) :=
    if Rlt_dec 0.99999 d then
      let omega := 0.5 *s deltaR R in
      let Omega := skew omega in
      (omega,
       Identity -m 0.5 *: Omega +m (1 / 12) *: (Omega *m Omega))
    else
      let theta := acos d in
      let omega := (theta / (2 * sqrt (1 - d * d))) *s deltaR R in
      let Omega := skew omega in
      (omega,
       Identity -m 0.5 *: Omega
       +m ((1 - theta / (2 * tan (theta / 2))) / (theta * theta))
          *: (Omega *m Omega)) in
  let v := set_slice 0 v omega in
  let v := set_slice 3 v (V_inv *v t) in
  v.

(** [M3x9]: nine columns built from [a] and the columns of [B]. *)
Definition M3x9 (a : Vector 3) (B : Matrix 3 3) : Matrix 3 9 :=
  let J : Matrix 3 9 := mZeros in
  let J := set_col J 0 a in
  let J := set_col J 1 (vneg (col B 2)) in
  let J := set_col J 2 (col B 1) in
  let J := set_col J 3 (col B 2) in
  let J := set_col J 4 a in
  let J := set_col J 5 (vneg (col B 0)) in
  let J := set_col J 6 (vneg (col B 1)) in
  let J := set_col J 7 (col B 0) in
  let J := set_col J 8 a in
  J.

(** [dlnR_dR]. *)
Definition dlnR_dR (R : Matrix 3 3) : Matrix 3 9 :=
  let d := 0.5 * (entry R 0 0 + entry R 1 1 + entry R 2 2 - 1) in
  let '(a, B) :=
    if Rlt_dec 0.99999 d then
      (makeVector3 0 0 0, (- 0.5) *: Identity)
    else
      let theta := acos d in
      let d2 := d * d in
      let sq := sqrt (1 - d2) in
      (((d * theta - sq) / (4 * Po3 sq)) *s deltaR R,
       (- theta / (2 * sq)) *: Identity) in
  M3x9 a B.

(** [ddeltaRt_dR]. *)
Definition ddeltaRt_dR (X : SE3) : Matrix 3 3 :=
  let R := get_matrix (get_rotation X) in
  let t := get_translation X in
  let abc := deltaR R in
  let a := at_ abc 0 in
  let b := at_ abc 1 in
  let c := at_ abc 2 in
  ( makeVector3 (- b * at_ t 1 - c * at_ t 2)
                (2 * b * at_ t 0 - a * at_ t 1)
                (2 * c * at_ t 0 - a * at_ t 2),
  ( makeVector3 (- b * at_ t 0 + 2 * a * at_ t 1)
                (- a * at_ t 0 - c * at_ t 2)
                (2 * c * at_ t 1 - b * at_ t 2),
  ( makeVector3 (- c * at_ t 0 + 2 * a * at_ t 2)
                (- c * at_ t 1 + 2 * b * at_ t 2)
                (- a * at_ t 0 - b * at_ t 1), tt))).

(** [dVinvt_dR].  The test reads [d > 0.9999] in the source. *)
Definition dVinvt_dR (X : SE3) : Matrix 3 9 :=
  let R := get_matrix (get_rotation X) in
  let t := get_translation X in
  let d := 0.5 * (entry R 0 0 + entry R 1 1 + entry R 2 2 - 1) in
  let '(a, B) :=
    if Rlt_dec 0.9999 d then
      (makeVector3 0 0 0, @mZeros 3 3)
    else
      let theta := acos d in
      let theta2 := theta * theta in
      let oned2 := 1 - d * d in
      let sq := sqrt oned2 in
      let cot := 1 / tan (0.5 * theta) in
      let csc2 := Po2 (1 / sin (0.5 * theta)) in
      let skewR := skew (deltaR R) in
      ((- (d * theta - sq) / (8 * Po3 sq)) *: skewR *v t
       +v (((theta * sq - d * theta2) * (0.5 * theta * cot - 1)
            - theta * sq
              * (0.25 * theta * cot + 0.125 * theta2 * csc2 - 1))
           / (4 * theta2 * Po2 oned2)) *s (skewR *m skewR *v t),
       (- 0.5 * theta / (2 * sq)) *: skew t
       -m ((theta * cot - 2) / (8 * oned2)) *: ddeltaRt_dR X) in
  M3x9 a B.

(** [dlnT_dT]: Jacobian of the logarithm with respect to the flattened
    [(R, t)]. *)
Definition dlnT_dT (X : SE3) : Matrix 6 12 :=
  let J : Matrix 6 12 := mZeros in
  let J := set_block 0 0 J (dlnR_dR (get_matrix (get_rotation X))) in
  let J := set_block 3 0 J (dVinvt_dR X) in
  let R := get_matrix (get_rotation X) in
  let d := 0.5 * (entry R 0 0 + entry R 1 1 + entry R 2 2 - 1) in
  let V_inv :=
    if Rlt_dec 0.99999 d then
      let omega := 0.5 *s deltaR R in
      let Omega := skew omega in
      Identity -m 0.5 *: Omega +m (1 / 12) *: (Omega *m Omega)
    else
      let theta := acos d in
      let omega := (theta / (2 * sqrt (1 - d * d))) *s deltaR R in
      let Omega := skew omega in
      Identity -m 0.5 *: Omega
      +m ((1 - theta / (2 * tan (theta / 2))) / (theta * theta))
         *: (Omega *m Omega) in
  let J := set_block 3 9 J V_inv in
  J.

(** [dexp_x_T_ddelta]: Jacobian of the update [exp(delta)*T] with respect
    to [delta]. *)
Definition dexp_x_T_ddelta (X : SE3) : Matrix 12 6 :=
  let J : Matrix 12 6 := mZeros in
  let R := get_matrix (get_rotation X) in
  let t := get_translation X in
  let J := set_block 0 3 J (mneg (skew (col R 0))) in
  let J := set_block 3 3 J (mneg (skew (col R 1))) in
  let J := set_block 6 3 J (mneg (skew (col R 2))) in
  let J := set_block 9 3 J (mneg (skew t)) in
  let J := set_block 9 0 J (@Identity 3) in
  J.

(** [dDiff_dT1]. *)
Definition dDiff_dT1 (Tc T2 : SE3) : Matrix 12 12 :=
  let J : Matrix 12 12 := mZeros in
  let R2 := get_matrix (get_rotation T2) in
  let Rc := get_matrix (get_rotation Tc) in
  let t2 := get_translation T2 in
  let J := set_block 0 0 J (kron R2 Rc) in
  let J := set_block 9 0 J (kron (mneg (T (T R2 *m as_col t2))) Rc) in
  let J := set_block 9 9 J Rc in
  J.

(** [dDiff_dT2]. *)
Definition dDiff_dT2 (T1 Tc T2 : SE3) : Matrix 12 12 :=
  let J : Matrix 12 12 := mZeros in
  let R := get_matrix (get_rotation T1) in
  let R2 := get_matrix (get_rotation T2) in
  let Rc := get_matrix (get_rotation Tc) in
  let t2 := get_translation T2 in
  let I : Matrix 3 3 := Identity in
  let J := set_block 0 0 J (kron I (Rc *m as_col (col R 0))) in
  let J := set_block 0 3 J (kron I (Rc *m as_col (col R 1))) in
  let J := set_block 0 6 J (kron I (Rc *m as_col (col R 2))) in
  let J := set_block 9 0 J (kron (mneg (as_row t2)) (Rc *m as_col (col R 0))) in
  let J := set_block 9 3 J (kron (mneg (as_row t2)) (Rc *m as_col (col R 1))) in
  let J := set_block 9 6 J (kron (mneg (as_row t2)) (Rc *m as_col (col R 2))) in
  let J := set_block 9 9 J (mneg Rc *m R *m T R2) in
  J.

End SE3Helper.

(** *** SE3ConFun: rigid-transform constraints *)

Definition SE3ConFun_diff (T1 C T2 : SE3) : Vector 6 :=
  let D := (C *T T1) *T SE3_inverse T2 in
  SE3Helper.ln (get_matrix (get_rotation D)) (get_translation D).

Definition SE3ConFun_d_diff_dT1 (T1 C T2 : SE3) : Matrix 6 6 :=
  let dT1_dlnT1 := SE3Helper.dexp_x_T_ddelta T1 in
  let dD_dT1 := SE3Helper.dDiff_dT1 C T2 in
  let D := T1 *T C *T SE3_inverse T2 in
  let dlnD_dD := SE3Helper.dlnT_dT D in
  dlnD_dD *m dD_dT1 *m dT1_dlnT1.

Definition SE3ConFun_d_diff_dT2 (T1 C T2 : SE3) : Matrix 6 6 :=
  let dT2_dlnT2 := SE3Helper.dexp_x_T_ddelta T2 in
  let dD_dT2 := SE3Helper.dDiff_dT2 T1 C T2 in
  let D := T1 *T C *T SE3_inverse T2 in
  let dlnD_dD := SE3Helper.dlnT_dT D in
  dlnD_dD *m dD_dT2 *m dT2_dlnT2.

Definition SE3ConFun_add (X : SE3) (delta : Vector 6) : SE3 :=
  SE3_exp delta *T X.

#[export] Instance SE3ConFun : AbstractConFun SE3 6 := {|
  diff := SE3ConFun_diff;
  d_diff_dT1 := SE3ConFun_d_diff_dT1;
  d_diff_dT2 := SE3ConFun_d_diff_dT2;
  con_add := SE3ConFun_add
|}.

(** *** SO3xR3ConFun: pseudo rigid transformation <So3,R3> constraints *)

Definition SO3xR3ConFun_diff (T1 C T2 : SE3) : Vector 6 :=
  SE3Helper.ln_so3xR3 ((C *T T1) *T SE3_inverse T2).

Definition SO3xR3ConFun_add (X : SE3) (delta : Vector 6) : SE3 :=
  let omega := slice 3 3 delta in
  let R := SO3_mul (SO3_exp omega) (get_rotation X) in
  mkSE3 R (get_translation X +v slice 0 3 delta).

(** The class overrides neither Jacobian: both are the inherited default
    bodies, run on this class's [diff] and [add]. *)
#[export] Instance SO3xR3ConFun : AbstractConFun SE3 6 := {|
  diff := SO3xR3ConFun_diff;
  d_diff_dT1 := AbstractConFun_d_diff_dT1 SO3xR3ConFun_diff SO3xR3ConFun_add;
  d_diff_dT2 := AbstractConFun_d_diff_dT2 SO3xR3ConFun_diff SO3xR3ConFun_add;
  con_add := SO3xR3ConFun_add
|}.

(** *** SE3ConFunSO3xR3: Se3 constraints with the <So3,R3> residual *)

Definition SE3ConFunSO3xR3_diff (T1 C T2 : SE3) : Vector 6 :=
  SE3Helper.ln_so3xR3 ((C *T T1) *T SE3_inverse T2).

Definition SE3ConFunSO3xR3_add (X : SE3) (delta : Vector 6) : SE3 :=
  SE3_exp delta *T X.

#[export] Instance SE3ConFunSO3xR3 : AbstractConFun SE3 6 := {|
  diff := SE3ConFunSO3xR3_diff;
  d_diff_dT1 :=
    AbstractConFun_d_diff_dT1 SE3ConFunSO3xR3_diff SE3ConFunSO3xR3_add;
  d_diff_dT2 :=
    AbstractConFun_d_diff_dT2 SE3ConFunSO3xR3_diff SE3ConFunSO3xR3_add;
  con_add := SE3ConFunSO3xR3_add
|}.

End RobotVision.

Import RobotVision.

(** ** Vocabulary of the statements *)

(** The unit vector [e_i] along perturbation axis [i]. *)
Definition unit_vector (n i : nat) : Vector n :=
  vbuild n (fun j => if Nat.eqb j i then 1 else 0).

(** Sample poses: a quarter turn about the z axis, a quarter turn about
    the x axis, each with a translation. *)
Definition Rz90 : Matrix 3 3 :=
  ( makeVector3 0 (-1) 0,
  ( makeVector3 1 0 0,
  ( makeVector3 0 0 1, tt))).
Definition Rx90 : Matrix 3 3 :=
  ( makeVector3 1 0 0,
  ( makeVector3 0 0 (-1),
  ( makeVector3 0 1 0, tt))).
Definition pose_a : SE3 := mkSE3 (mkSO3 Rz90) (makeVector3 1 2 3).
Definition pose_b : SE3 := mkSE3 (mkSO3 Rx90) (makeVector3 0 1 0).

(** The wording of the logarithm's contract: [d = (trace(R) - 1) / 2],
    [vee] of a skew-symmetric matrix, and the 6-vector [[omega; rho]]. *)
Definition trace3 (M : Matrix 3 3) : R :=
  entry M 0 0 + entry M 1 1 + entry M 2 2.
Definition vee (M : Matrix 3 3) : Vector 3 :=
  makeVector3 (entry M 2 1) (entry M 0 2) (entry M 1 0).
Definition stack (a b : Vector 3) : Vector 6 :=
  makeVector6 (at_ a 0) (at_ a 1) (at_ a 2) (at_ b 0) (at_ b 1) (at_ b 2).

Definition ln_stated (R : Matrix 3 3) (t : Vector 3) : Vector 6 :=
  let d := (trace3 R - 1) / 2 in
  let omega :=
    if Rlt_dec 0.99999 d then 0.5 *s vee (R -m T R)
    else (acos d / (2 * sqrt (1 - d ^ 2))) *s vee (R -m T R) in
  let Omega := skew omega in
  let V_inv :=
    if Rlt_dec 0.99999 d then
      Identity -m 0.5 *: Omega +m (1 / 12) *: (Omega *m Omega)
    else
      let theta := acos d in
      Identity -m 0.5 *: Omega
      +m ((1 - theta / (2 * tan (theta / 2))) / theta ^ 2) *: (Omega *m Omega)
  in
  stack omega (V_inv *v t).

(** A pose turned about the z axis by the angle whose cosine is
    39999/40001 (about 0.99995) and whose sine is 400/40001. *)
Definition pose_c : SE3 :=
  mkSE3 (mkSO3 ( makeVector3 (39999 / 40001) (- (400 / 40001)) 0,
               ( makeVector3 (400 / 40001) (39999 / 40001) 0,
               ( makeVector3 0 0 1, tt))))
        (makeVector3 1 0 0).

(** A pure translation along x, and the update that turns by a half turn
    about the z axis. *)
Definition pose_x : SE3 := mkSE3 (mkSO3 Identity) (makeVector3 1 0 0).
Definition half_turn_z : Vector 6 := makeVector6 0 0 0 0 0 PI.

(** The block of [M] that [M.slice<i0,j0,r,c>()] names, and the flattened
    [(R, t)] pair of a transform: the three columns of [R], then [t]. *)
Definition get_block (i0 j0 r c : nat) {rr cc : nat} (M : Matrix rr cc)
  : Matrix r c :=
  mbuild r c (fun i j => entry M (i0 + i) (j0 + j)).
Definition flatten_SE3 (X : SE3) : Vector 12 :=
  let R := get_matrix (get_rotation X) in
  let t := get_translation X in
  vbuild 12 (fun k =>
    match Nat.div k 3 with
    | 0%nat => at_ (col R 0) (Nat.modulo k 3)
    | 1%nat => at_ (col R 1) (Nat.modulo k 3)
    | 2%nat => at_ (col R 2) (Nat.modulo k 3)
    | _ => at_ t (Nat.modulo k 3)
    end).

(** The Euclidean point [(u, v, 1) / q] of an inverse-depth point, and the
    matrix whose columns are the first two columns of [R] and [t]. *)
Definition euclidean_of_uvq (uvq : Vector 3) : Vector 3 :=
  (1 / at_ uvq 2) *s makeVector3 (at_ uvq 0) (at_ uvq 1) 1.
Definition rot12_trans (X : SE3) : Matrix 3 3 :=
  let R := get_matrix (get_rotation X) in
  let columns : Matrix 3 3 := (col R 0, (col R 1, (get_translation X, tt))) in
  T columns.

(** The matrix [[1, 0, -x/z], [0, 1, -y/z]] at a point [(x, y, z)], and
    the stated form [(1 / (z * q)) * [[1,0,-x/z],[0,1,-y/z]] * M] of the
    derivative of the projection with respect to [(u, v, q)]. *)
Definition perspective_rows (p : Vector 3) : Matrix 2 3 :=
  ( makeVector3 1 0 (- at_ p 0 / at_ p 2),
  ( makeVector3 0 1 (- at_ p 1 / at_ p 2), tt)).
Definition uvq_projection_jacobian (X : SE3) (uvq : Vector 3) : Matrix 2 3 :=
  let p := transform X (euclidean_of_uvq uvq) in
  (1 / (at_ p 2 * at_ uvq 2)) *: perspective_rows p *m rot12_trans X.

(** A camera with unit focal length and principal point at the origin,
    and an inverse-depth point. *)
Definition unit_camera : LinearCamera := mkLinearCamera Identity Zeros.
Definition point_uvq : Vector 3 := makeVector3 1 2 (1 / 2).

(** Quarter turns about the x and the z axis without translation, and the
    pose that satisfies the constraint [turn_z] from [turn_x] exactly. *)
Definition turn_x : SE3 := mkSE3 (mkSO3 Rx90) Zeros.
Definition turn_z : SE3 := mkSE3 (mkSO3 Rz90) Zeros.
Definition turn_zx : SE3 := turn_z *T turn_x.


(** The column-major flattening of a 3x3 matrix ([R.T()[0]], [R.T()[1]],
    [R.T()[2]] one after the other), the order in which the 3x9 and 12x12
    Jacobians number the entries of a rotation matrix, and its inverse. *)
Definition flatten3x3 (M : Matrix 3 3) : Vector 9 :=
  vbuild 9 (fun k => entry M (Nat.modulo k 3) (Nat.div k 3)).
Definition unflatten3x3 (v : Vector 9) : Matrix 3 3 :=
  mbuild 3 3 (fun i j => at_ v (3 * j + i)).

(** A transform read back from its flattened [(R, t)] pair. *)
Definition unflatten_SE3 (v : Vector 12) : SE3 :=
  mkSE3 (mkSO3 (unflatten3x3 (slice 0 9 v))) (slice 9 3 v).

(** The Jacobian of [(u, v, q) |-> (u, v, 1) / q]. *)
Definition euclidean_of_uvq_jacobian (uvq : Vector 3) : Matrix 3 3 :=
  let u := at_ uvq 0 in
  let v := at_ uvq 1 in
  let q := at_ uvq 2 in
  let rows : Matrix 3 3 :=
    ( makeVector3 1 0 (- u / q),
    ( makeVector3 0 1 (- v / q),
    ( makeVector3 0 0 (- 1 / q), tt))) in
  (1 / q) *: rows.

(** The scalar factor of the general branch of the logarithm,
    [acos d / (2 sqrt (1 - d^2))]. *)
Definition ln_factor (d : R) : R := acos d / (2 * sqrt (1 - d * d)).

(** The matrix [I - 0.5 Omega + c Omega^2] of the logarithm with
    [Omega = skew w], and the coefficient [c] of its general branch. *)
Definition V_inv_of (w : Vector 3) (c : R) : Matrix 3 3 :=
  Identity -m 0.5 *: skew w +m c *: (skew w *m skew w).
Definition ln_coefficient (theta : R) : R :=
  (1 - theta / (2 * tan (theta / 2))) / (theta * theta).


(** * Properties *)

Lemma pair_eq {A B : Type} (a c : A) (b d : B) :
  a = c -> b = d -> (a, b) = (c, d).
Proof. intros -> ->. reflexivity. Qed.

Ltac vsplit :=
  repeat match goal with
         | |- (_, _) = (_, _) => apply pair_eq
         | |- tt = tt => reflexivity
         end.

Ltac destruct_vec3 v := destruct v as [? [? [? []]]].
Ltac destruct_mat3 M :=
  destruct M as [[? [? [? []]]] [[? [? [? []]]] [[? [? [? []]]] []]]].
Ltac destruct_SE3 X :=
  let R := fresh "R" in
  let t := fresh "t" in
  destruct X as [[R] t]; destruct_mat3 R; destruct_vec3 t.


(** ** Fixed-size vectors *)

Section VecFacts.

Context {A : Type}.

Lemma vnth_vset_eq (d : A) (n : nat) (v : vec A n) (i : nat) (a : A) :
  (i < n)%nat -> vnth d (vset v i a) i = a.
Proof.
  revert v i. induction n as [|n IH]; intros v i Hi; [lia|].
  destruct i as [|i]; cbn; [reflexivity|]. apply IH. lia.
Qed.

Lemma vnth_vset_neq (d : A) (n : nat) (v : vec A n) (i j : nat) (a : A) :
  i <> j -> vnth d (vset v i a) j = vnth d v j.
Proof.
  revert v i j. induction n as [|n IH]; intros v i j Hij; [reflexivity|].
  destruct i as [|i], j as [|j]; cbn; try reflexivity; try congruence.
  apply IH. congruence.
Qed.

Lemma vnth_vbuild (d : A) (n : nat) (f : nat -> A) (i : nat) :
  (i < n)%nat -> vnth d (vbuild n f) i = f i.
Proof.
  revert f i. induction n as [|n IH]; intros f i Hi; [lia|].
  destruct i as [|i]; cbn; [reflexivity|].
  rewrite IH by lia. reflexivity.
Qed.

Lemma vbuild_ext (n : nat) (f g : nat -> A) :
  (forall i, (i < n)%nat -> f i = g i) -> vbuild n f = vbuild n g.
Proof.
  revert f g. induction n as [|n IH]; intros f g H; [reflexivity|].
  cbn. f_equal; [apply H; lia|]. apply IH. intros i Hi. apply H. lia.
Qed.

Lemma vbuild_vnth (d : A) (n : nat) (v : vec A n) :
  vbuild n (vnth d v) = v.
Proof.
  induction n as [|n IH]; [destruct v; reflexivity|].
  destruct v as [a v]. cbn. f_equal. apply IH.
Qed.

End VecFacts.

Lemma vnth_vmap2 {A B C : Type} (f : A -> B -> C) (da : A) (db : B) (dc : C)
  (n : nat) (v : vec A n) (w : vec B n) (i : nat) :
  (i < n)%nat -> vnth dc (vmap2 f v w) i = f (vnth da v i) (vnth db w i).
Proof.
  revert v w i. induction n as [|n IH]; intros v w i Hi; [lia|].
  destruct i as [|i]; cbn; [reflexivity|]. apply IH. lia.
Qed.

Lemma col_set_col_eq {r c : nat} (M : Matrix r c) (j : nat) (v : Vector r) :
  (j < c)%nat -> col (set_col M j v) j = v.
Proof.
  intros Hj. unfold col, set_col, entry, row, at_.
  transitivity (vbuild r (vnth 0 v)); [|apply vbuild_vnth].
  apply vbuild_ext. intros i Hi.
  rewrite (vnth_vmap2 _ Zeros 0 Zeros) by exact Hi.
  apply vnth_vset_eq. exact Hj.
Qed.

Lemma col_set_col_neq {r c : nat} (M : Matrix r c) (j k : nat)
  (v : Vector r) :
  j <> k -> col (set_col M j v) k = col M k.
Proof.
  intros Hjk. unfold col, set_col, entry, row, at_.
  apply vbuild_ext. intros i Hi.
  rewrite (vnth_vmap2 _ Zeros 0 Zeros) by exact Hi.
  apply vnth_vset_neq. exact Hjk.
Qed.

(** The loop shape shared by the four numerical Jacobians: a column that
    no round assigns keeps its value, and column [i] is what round [i]
    assigned. *)
Lemma col_fold_set_col_other {r c : nat} (g : nat -> Vector r)
  (l : list nat) (J : Matrix r c) (i : nat) :
  ~ In i l ->
  col (List.fold_left (fun J k => set_col J k (g k)) l J) i = col J i.
Proof.
  revert J. induction l as [|k l IH]; intros J Hni; [reflexivity|].
  cbn [List.fold_left]. rewrite IH by (intros H; apply Hni; right; exact H).
  apply col_set_col_neq. intros ->. apply Hni. left. reflexivity.
Qed.

Lemma col_fold_set_col {r c : nat} (g : nat -> Vector r) (l : list nat)
  (J : Matrix r c) (i : nat) :
  NoDup l -> In i l -> (i < c)%nat ->
  col (List.fold_left (fun J k => set_col J k (g k)) l J) i = g i.
Proof.
  revert J. induction l as [|k l IH]; intros J Hnd Hin Hi; [destruct Hin|].
  inversion Hnd as [|? ? Hk Hnd']; subst. cbn [List.fold_left].
  destruct Hin as [->|Hin]; [|apply IH; assumption].
  rewrite col_fold_set_col_other by exact Hk.
  apply col_set_col_eq. exact Hi.
Qed.

Lemma vset_Zeros_scale (n i : nat) (h : R) :
  vset (@Zeros n) i h = h *s unit_vector n i.
Proof.
  unfold unit_vector, Zeros, vscale. revert i.
  induction n as [|n IH]; intros i; [reflexivity|].
  destruct i as [|i]; cbn.
  - f_equal; [lra|].
    clear IH. induction n as [|n IH]; [reflexivity|].
    cbn. f_equal; [lra|]. exact IH.
  - f_equal; [lra|]. rewrite IH. reflexivity.
Qed.

(** C5. The default [frameJac] and [pointJac] of [AbstractPrediction] and
    the default [d_diff_dT1] and [d_diff_dT2] of [AbstractConFun] are
    forward differences with step [h = 1e-12]: column [i] is
    [(f (add (.) (h * e_i)) - f (.)) / h], for every perturbation axis
    [i] below the number of degrees of freedom. *)
Theorem numerical_jacobians_forward_difference :
  let h := 0.000000000001 in
  (forall (Frame : Type) (FrameDoF PointParNum PointDoF ObsDim : nat)
      (P : AbstractPrediction Frame FrameDoF PointParNum PointDoF ObsDim)
      (X : Frame) (x : Vector PointParNum),
      (forall i, (i < FrameDoF)%nat ->
         col (AbstractPrediction_frameJac map add X x) i
         = vdiv (map (add X (h *s unit_vector FrameDoF i)) x -v map X x) h)
      /\
      (forall i, (i < PointDoF)%nat ->
         col (AbstractPrediction_pointJac map add_point X x) i
         = vdiv (map X (add_point x (h *s unit_vector PointDoF i))
                 -v map X x) h))
  /\
  (forall (Trans : Type) (TransDoF : nat) (F : AbstractConFun Trans TransDoF)
      (T1 C T2 : Trans) (i : nat), (i < TransDoF)%nat ->
      col (AbstractConFun_d_diff_dT1 diff con_add T1 C T2) i
      = vdiv (diff (con_add T1 (h *s unit_vector TransDoF i)) C T2
              -v diff T1 C T2) h
      /\
      col (AbstractConFun_d_diff_dT2 diff con_add T1 C T2) i
      = vdiv (diff T1 C (con_add T2 (h *s unit_vector TransDoF i))
              -v diff T1 C T2) h).
Proof.
  intros h.
  assert (Hseq : forall n i, (i < n)%nat -> In i (List.seq 0 n))
    by (intros n i Hi; apply in_seq; lia).
  split.
  - intros Frame FrameDoF PointParNum PointDoF ObsDim P X x. split.
    + intros i Hi. unfold AbstractPrediction_frameJac.
      rewrite (col_fold_set_col
                 (fun k => vdiv (map (add X (vset Zeros k h)) x -v map X x) h))
        by (auto using seq_NoDup).
      rewrite vset_Zeros_scale. reflexivity.
    + intros i Hi. unfold AbstractPrediction_pointJac.
      rewrite (col_fold_set_col
                 (fun k => vdiv (map X (add_point x (vset Zeros k h))
                                 -v map X x) h))
        by (auto using seq_NoDup).
      rewrite vset_Zeros_scale. reflexivity.
  - intros Trans TransDoF F T1 C T2 i Hi. split.
    + unfold AbstractConFun_d_diff_dT1.
      rewrite (col_fold_set_col
                 (fun k => vdiv (diff (con_add T1 (vset Zeros k h)) C T2
                                 -v diff T1 C T2) h))
        by (auto using seq_NoDup).
      rewrite vset_Zeros_scale. reflexivity.
    + unfold AbstractConFun_d_diff_dT2.
      rewrite (col_fold_set_col
                 (fun k => vdiv (diff T1 C (con_add T2 (vset Zeros k h))
                                 -v diff T1 C T2) h))
        by (auto using seq_NoDup).
      rewrite vset_Zeros_scale. reflexivity.
Qed.

Lemma numerical_jacobians_forward_difference_witness :
  (2 < 6)%nat
  /\ col (AbstractConFun_d_diff_dT1 SO3xR3ConFun_diff SO3xR3ConFun_add
            pose_a pose_b pose_a) 2
     = vdiv (SO3xR3ConFun_diff
               (SO3xR3ConFun_add pose_a
                  (0.000000000001 *s unit_vector 6 2)) pose_b pose_a
             -v SO3xR3ConFun_diff pose_a pose_b pose_a) 0.000000000001.
Proof.
  split; [lia|].
  exact (proj1 (proj2 numerical_jacobians_forward_difference
                  SE3 6%nat SO3xR3ConFun pose_a pose_b pose_a 2%nat
                  ltac:(lia))).
Defined.

(** ** Rotations and the group laws of [SE3] *)

Lemma is_rotation_rows (M : Matrix 3 3) :
  is_rotation M -> M *m T M = Identity.
Proof.
  intros [Ho Hd]. destruct_mat3 M.
  cbn in Ho, Hd. injection Ho as H1 H2 H3 H4 H5 H6 H7 H8 H9.
  cbn. vsplit; nsatz.
Qed.


Lemma SE3_mul_assoc (A B C : SE3) : A *T B *T C = A *T (B *T C).
Proof.
  destruct_SE3 A. destruct_SE3 B. destruct_SE3 C.
  unfold SE3_mul, SO3_mul, SO3_act. cbn. 
  f_equal; [f_equal|]; vsplit; ring.
Qed.

Lemma SE3_inverse_left (A : SE3) :
  is_rigid A -> SE3_inverse A *T A = SE3_identity.
Proof.
  unfold is_rigid. intros [Ho _]. destruct_SE3 A.
  cbn in Ho. injection Ho as H1 H2 H3 H4 H5 H6 H7 H8 H9.
  unfold SE3_mul, SE3_inverse, SO3_mul, SO3_act, SO3_inverse, SE3_identity.
  cbn. f_equal; [f_equal|]; vsplit; first [assumption | ring | nsatz].
Qed.

Lemma SE3_inverse_right (A : SE3) :
  is_rigid A -> A *T SE3_inverse A = SE3_identity.
Proof.
  unfold is_rigid. intros Hr. pose proof (is_rotation_rows _ Hr) as Ho.
  destruct_SE3 A.
  cbn in Ho. injection Ho as H1 H2 H3 H4 H5 H6 H7 H8 H9.
  unfold SE3_mul, SE3_inverse, SO3_mul, SO3_act, SO3_inverse, SE3_identity.
  cbn. f_equal; [f_equal|]; vsplit; first [assumption | ring | nsatz].
Qed.

Lemma SE3_mul_identity_r (A : SE3) : A *T SE3_identity = A.
Proof.
  destruct_SE3 A. unfold SE3_mul, SO3_mul, SO3_act, SE3_identity.
  cbn. f_equal; [f_equal|]; vsplit; ring.
Qed.

Lemma SE3_mul_identity_l (A : SE3) : SE3_identity *T A = A.
Proof.
  destruct_SE3 A. unfold SE3_mul, SO3_mul, SO3_act, SE3_identity.
  cbn. f_equal; [f_equal|]; vsplit; ring.
Qed.

Lemma ln_identity : SE3Helper.ln Identity Zeros = Zeros.
Proof.
  unfold SE3Helper.ln. cbn.
  destruct (Rlt_dec _ _) as [_|H]; [|exfalso; apply H; lra].
  cbn. vsplit; ring.
Qed.

Lemma ln_so3_identity : SE3Helper.ln_so3 Identity = Zeros.
Proof.
  unfold SE3Helper.ln_so3. cbn.
  destruct (Rlt_dec _ _) as [_|H]; [|exfalso; apply H; lra].
  cbn. vsplit; ring.
Qed.

Lemma exact_constraint_relative_transform (T1 T2 : SE3) :
  is_rigid T1 -> is_rigid T2 ->
  (T2 *T SE3_inverse T1 *T T1) *T SE3_inverse T2 = SE3_identity.
Proof.
  intros H1 H2.
  rewrite (SE3_mul_assoc T2), SE3_inverse_left by exact H1.
  rewrite SE3_mul_identity_r. apply SE3_inverse_right. exact H2.
Qed.

(** C6. At the exactly satisfying constraint [C = T2 * T1^-1] the
    residual [diff T1 C T2] is the zero vector, for [SE3ConFun] and for
    both <So3,R3> variants: the relative transform is the identity, whose
    logarithm is taken in the near-identity branch. *)
Theorem exact_constraint_zero_residual (T1 T2 : SE3) :
  is_rigid T1 -> is_rigid T2 ->
  let C := T2 *T SE3_inverse T1 in
  @diff _ _ SE3ConFun T1 C T2 = Zeros
  /\ @diff _ _ SO3xR3ConFun T1 C T2 = Zeros
  /\ @diff _ _ SE3ConFunSO3xR3 T1 C T2 = Zeros.
Proof.
  intros H1 H2 C. subst C. cbn [diff SE3ConFun SO3xR3ConFun SE3ConFunSO3xR3].
  unfold SE3ConFun_diff, SO3xR3ConFun_diff, SE3ConFunSO3xR3_diff.
  rewrite exact_constraint_relative_transform by assumption.
  cbn [SE3_identity get_rotation get_matrix get_translation].
  rewrite ln_identity.
  unfold SE3Helper.ln_so3xR3.
  cbn [SE3_identity get_rotation get_matrix get_translation].
  rewrite ln_so3_identity. repeat split.
Qed.

Lemma is_rigid_pose_a : is_rigid pose_a.
Proof. split; [cbn; vsplit; ring | unfold det3; cbn; ring]. Qed.

Lemma is_rigid_pose_b : is_rigid pose_b.
Proof. split; [cbn; vsplit; ring | unfold det3; cbn; ring]. Qed.

Lemma exact_constraint_zero_residual_witness :
  is_rigid pose_a /\ is_rigid pose_b
  /\ (let C := pose_b *T SE3_inverse pose_a in
      @diff _ _ SE3ConFun pose_a C pose_b = Zeros
      /\ @diff _ _ SO3xR3ConFun pose_a C pose_b = Zeros
      /\ @diff _ _ SE3ConFunSO3xR3 pose_a C pose_b = Zeros).
Proof.
  split; [exact is_rigid_pose_a|]. split; [exact is_rigid_pose_b|].
  exact (exact_constraint_zero_residual pose_a pose_b
           is_rigid_pose_a is_rigid_pose_b).
Defined.

(** ** The logarithm map *)

(** C2. [SE3Helper::ln(R, t)] is the 6-vector [[omega; V_inv * t]] with,
    for [d = (trace(R) - 1) / 2]: in the branch [d > 0.99999],
    [omega = 0.5 * vee(R - R^T)] and
    [V_inv = I - 0.5 * Omega + (1/12) * Omega^2]; otherwise, with
    [theta = acos d], [omega = theta / (2 * sqrt(1 - d^2)) * vee(R - R^T)]
    and [V_inv = I - 0.5 * Omega
                 + ((1 - theta / (2 * tan(theta/2))) / theta^2) * Omega^2],
    where [Omega = skew omega]. *)
Theorem ln_as_stated (R : Matrix 3 3) (t : Vector 3) :
  SE3Helper.ln R t = ln_stated R t.
Proof.
  destruct_mat3 R. destruct_vec3 t.
  unfold SE3Helper.ln, ln_stated, trace3.
  cbn [entry row at_ vnth fst snd].
  set (d := 0.5 * (_ + _ + _ - 1)).
  replace ((_ + _ + _ - 1) / 2) with d by (unfold d; lra).
  replace (d ^ 2) with (d * d) by ring.
  replace (acos d ^ 2) with (acos d * acos d) by ring.
  destruct (Rlt_dec _ _) as [H|H].
  - cbn. unfold stack, makeVector6. cbn. vsplit; ring.
  - cbn. unfold stack, makeVector6. cbn. vsplit; ring.
Qed.


(** ** The <So3,R3> constraint classes *)

Lemma slice_0_set_slices (w t : Vector 3) :
  slice 0 3 (set_slice 3 (set_slice 0 (@Zeros 6) w) t) = w.
Proof. destruct_vec3 w. destruct_vec3 t. reflexivity. Qed.

Lemma slice_3_set_slices (w t : Vector 3) :
  slice 3 3 (set_slice 3 (set_slice 0 (@Zeros 6) w) t) = t.
Proof. destruct_vec3 w. destruct_vec3 t. reflexivity. Qed.

Lemma sqrt_norm_half_turn : sqrt (0 * 0 + (0 * 0 + (PI * PI + 0))) = PI.
Proof.
  replace (0 * 0 + (0 * 0 + (PI * PI + 0))) with (Rsqr PI)
    by (unfold Rsqr; ring).
  apply sqrt_Rsqr. left. exact PI_RGT_0.
Qed.

Lemma adds_differ_at_half_turn :
  get_translation (SO3xR3ConFun_add pose_x half_turn_z) = makeVector3 1 0 0
  /\ get_translation (SE3ConFunSO3xR3_add pose_x half_turn_z)
     = makeVector3 (-1) 0 0.
Proof.
  split.
  - cbn. unfold makeVector3. vsplit; ring.
  - unfold SE3ConFunSO3xR3_add, SE3_exp, SO3_exp, pose_x, half_turn_z.
    cbn. rewrite sqrt_norm_half_turn.
    destruct (Req_dec_T PI 0) as [H|H]; [exfalso; exact (PI_neq0 H)|].
    cbn. rewrite sin_PI, cos_PI. unfold makeVector3.
    vsplit; field; exact H.
Qed.

(** C7. [SO3xR3ConFun] and [SE3ConFunSO3xR3] have the same residual: both
    return [ln_so3xR3 ((C * T1) * T2^-1)], the rotation logarithm of the
    relative rotation in components 0-2 and the relative translation as
    it is in components 3-5.  They differ in [add]: the first multiplies
    the rotation from the left by the exponential of [delta[3..5]] and
    adds [delta[0..2]] to the translation, the second multiplies the whole
    transform from the left by the exponential of [delta]; the two
    updates do give different transforms.  Neither class overrides the
    Jacobians: both run the inherited forward-difference bodies. *)
Theorem so3xr3_variants_same_residual :
  (forall T1 C T2 : SE3,
      let D := (C *T T1) *T SE3_inverse T2 in
      @diff _ _ SO3xR3ConFun T1 C T2 = SE3Helper.ln_so3xR3 D
      /\ @diff _ _ SE3ConFunSO3xR3 T1 C T2 = SE3Helper.ln_so3xR3 D
      /\ @diff _ _ SO3xR3ConFun T1 C T2 = @diff _ _ SE3ConFunSO3xR3 T1 C T2
      /\ slice 0 3 (SE3Helper.ln_so3xR3 D)
         = SE3Helper.ln_so3 (get_matrix (get_rotation D))
      /\ slice 3 3 (SE3Helper.ln_so3xR3 D) = get_translation D)
  /\ (forall (X : SE3) (delta : Vector 6),
         @con_add _ _ SO3xR3ConFun X delta
         = mkSE3 (SO3_mul (SO3_exp (slice 3 3 delta)) (get_rotation X))
                 (get_translation X +v slice 0 3 delta)
         /\ @con_add _ _ SE3ConFunSO3xR3 X delta = SE3_exp delta *T X)
  /\ @con_add _ _ SO3xR3ConFun pose_x half_turn_z
     <> @con_add _ _ SE3ConFunSO3xR3 pose_x half_turn_z
  /\ (forall T1 C T2 : SE3,
         @d_diff_dT1 _ _ SO3xR3ConFun T1 C T2
         = AbstractConFun_d_diff_dT1 (@diff _ _ SO3xR3ConFun)
             (@con_add _ _ SO3xR3ConFun) T1 C T2
         /\ @d_diff_dT2 _ _ SO3xR3ConFun T1 C T2
            = AbstractConFun_d_diff_dT2 (@diff _ _ SO3xR3ConFun)
                (@con_add _ _ SO3xR3ConFun) T1 C T2
         /\ @d_diff_dT1 _ _ SE3ConFunSO3xR3 T1 C T2
            = AbstractConFun_d_diff_dT1 (@diff _ _ SE3ConFunSO3xR3)
                (@con_add _ _ SE3ConFunSO3xR3) T1 C T2
         /\ @d_diff_dT2 _ _ SE3ConFunSO3xR3 T1 C T2
            = AbstractConFun_d_diff_dT2 (@diff _ _ SE3ConFunSO3xR3)
                (@con_add _ _ SE3ConFunSO3xR3) T1 C T2).
Proof.
  split; [|split; [|split]].
  - intros T1 C T2 D.
    split; [reflexivity|split; [reflexivity|split; [reflexivity|split]]].
    + unfold SE3Helper.ln_so3xR3. apply slice_0_set_slices.
    + unfold SE3Helper.ln_so3xR3. apply slice_3_set_slices.
  - intros X delta. split; reflexivity.
  - cbn [con_add SO3xR3ConFun SE3ConFunSO3xR3]. intros Heq.
    destruct adds_differ_at_half_turn as [H1 H2].
    rewrite Heq, H2 in H1. injection H1 as H1. lra.
  - intros T1 C T2. repeat split.
Qed.

(** ** Observations with an information matrix *)

(** C10 (what the code does).  With the member declared
    [TooN::Matrix<2,2> lambda], the constructor stores identifiers,
    measurement and information matrix unchanged when [ObsDim] is 2, and
    there is no value of the class for a 1x1 or for a 3x3 and larger
    information matrix. *)
Theorem IdObsLambda_lambda_fixed_2x2 :
  (forall (point_id_ frame_id_ : Z) (obs_ : Vector 2) (lambda_ : Matrix 2 2),
      IdObsLambda_ctor point_id_ frame_id_ obs_ lambda_
      = Some (mkIdObsLambda (mkIdObs frame_id_ point_id_ obs_) lambda_))
  /\ (forall (point_id_ frame_id_ : Z) (obs_ : Vector 1)
        (lambda_ : Matrix 1 1),
         IdObsLambda_ctor point_id_ frame_id_ obs_ lambda_ = None)
  /\ (forall (n : nat) (point_id_ frame_id_ : Z) (obs_ : Vector (3 + n))
        (lambda_ : Matrix (3 + n) (3 + n)),
         IdObsLambda_ctor point_id_ frame_id_ obs_ lambda_ = None).
Proof.
  split; [|split].
  - intros p f o [[a [b []]] [[c [d []]] []]]. reflexivity.
  - reflexivity.
  - reflexivity.
Qed.

(** ** Branch conditions of the logarithm's derivatives *)

(** C4 (what the code does).  [dlnR_dR] tests [d > 0.99999] like [ln] and
    [ln_so3], but [dVinvt_dR] tests [d > 0.9999]: at the rigid transform
    [pose_c], where [d = 39999/40001] lies between the two constants,
    [dVinvt_dR] returns its near-identity value (the zero matrix) while
    [dlnR_dR], [ln_so3] and [ln] compute their general branch. *)
Theorem dVinvt_dR_threshold_differs :
  let R := get_matrix (get_rotation pose_c) in
  let d := 39999 / 40001 in
  let theta := acos d in
  is_rigid pose_c
  /\ 0.5 * (entry R 0 0 + entry R 1 1 + entry R 2 2 - 1) = d
  /\ 0.9999 < d <= 0.99999
  /\ SE3Helper.dVinvt_dR pose_c = mZeros
  /\ SE3Helper.dlnR_dR R
     = SE3Helper.M3x9
         (((d * theta - sqrt (1 - d * d)) / (4 * Po3 (sqrt (1 - d * d))))
          *s deltaR R)
         ((- theta / (2 * sqrt (1 - d * d))) *: Identity)
  /\ SE3Helper.ln_so3 R = (theta / (2 * sqrt (1 - d * d))) *s deltaR R
  /\ slice 0 3 (SE3Helper.ln R (get_translation pose_c))
     = (theta / (2 * sqrt (1 - d * d))) *s deltaR R.
Proof.
  intros R d theta.
  assert (Hd : 0.5 * (entry R 0 0 + entry R 1 1 + entry R 2 2 - 1) = d)
    by (subst R d; cbn; lra).
  assert (Hlo : 0.9999 < d) by (subst d; lra).
  assert (Hhi : ~ 0.99999 < d) by (subst d; lra).
  split; [|split; [exact Hd|split; [subst d; lra|]]].
  { split; [cbn; vsplit; field | unfold det3; cbn; field]. }
  split; [|split; [|split]].
  - unfold SE3Helper.dVinvt_dR. fold R. rewrite Hd.
    destruct (Rlt_dec 0.9999 d) as [_|H]; [|contradiction].
    cbn. vsplit; ring.
  - unfold SE3Helper.dlnR_dR. rewrite Hd.
    destruct (Rlt_dec 0.99999 d) as [H|_]; [contradiction|]. reflexivity.
  - unfold SE3Helper.ln_so3. rewrite Hd.
    destruct (Rlt_dec 0.99999 d) as [H|_]; [contradiction|]. reflexivity.
  - unfold SE3Helper.ln. rewrite Hd.
    destruct (Rlt_dec 0.99999 d) as [H|_]; [contradiction|].
    cbn. vsplit; reflexivity.
Qed.

(** ** Derivatives at a point, for functions written as expressions *)

Lemma dlim_ext (f g : R -> R) (x l : R) :
  (forall h, f h = g h) -> derivable_pt_lim f x l -> derivable_pt_lim g x l.
Proof.
  intros Hfg Hf eps Heps. destruct (Hf eps Heps) as [delta Hd].
  exists delta. intros h Hh Hlt. rewrite <- !Hfg. apply Hd; assumption.
Qed.

Lemma dlim_eq (f : R -> R) (x l l' : R) :
  derivable_pt_lim f x l' -> l' = l -> derivable_pt_lim f x l.
Proof. intros H <-. exact H. Qed.

Lemma dlim_const (c x : R) : derivable_pt_lim (fun _ => c) x 0.
Proof. apply derivable_pt_lim_const. Qed.

Lemma dlim_id (x : R) : derivable_pt_lim (fun h => h) x 1.
Proof. apply derivable_pt_lim_id. Qed.

Lemma dlim_plus (f g : R -> R) (x l1 l2 : R) :
  derivable_pt_lim f x l1 -> derivable_pt_lim g x l2 ->
  derivable_pt_lim (fun h => f h + g h) x (l1 + l2).
Proof. intros; apply (derivable_pt_lim_plus f g); assumption. Qed.

Lemma dlim_minus (f g : R -> R) (x l1 l2 : R) :
  derivable_pt_lim f x l1 -> derivable_pt_lim g x l2 ->
  derivable_pt_lim (fun h => f h - g h) x (l1 - l2).
Proof. intros; apply (derivable_pt_lim_minus f g); assumption. Qed.

Lemma dlim_opp (f : R -> R) (x l : R) :
  derivable_pt_lim f x l -> derivable_pt_lim (fun h => - f h) x (- l).
Proof. intros; apply (derivable_pt_lim_opp f); assumption. Qed.

Lemma dlim_mult (f g : R -> R) (x l1 l2 : R) :
  derivable_pt_lim f x l1 -> derivable_pt_lim g x l2 ->
  derivable_pt_lim (fun h => f h * g h) x (l1 * g x + f x * l2).
Proof. intros; apply (derivable_pt_lim_mult f g); assumption. Qed.

Lemma dlim_sin (x : R) : derivable_pt_lim (fun h => sin h) x (cos x).
Proof. apply derivable_pt_lim_sin. Qed.

Lemma dlim_cos (x : R) : derivable_pt_lim (fun h => cos h) x (- sin x).
Proof. apply derivable_pt_lim_cos. Qed.

Lemma dlim_div (f g : R -> R) (x l1 l2 : R) :
  derivable_pt_lim f x l1 -> derivable_pt_lim g x l2 -> g x <> 0 ->
  derivable_pt_lim (fun h => f h / g h) x
    ((l1 * g x - l2 * f x) / Rsqr (g x)).
Proof. intros; apply (derivable_pt_lim_div f g); assumption. Qed.

Ltac dlim :=
  lazymatch goal with
  | |- derivable_pt_lim (fun _ => ?c) _ _ => apply dlim_const
  | |- derivable_pt_lim (fun h => h) _ _ => apply dlim_id
  | |- derivable_pt_lim (fun h => sin h) _ _ => apply dlim_sin
  | |- derivable_pt_lim (fun h => cos h) _ _ => apply dlim_cos
  | |- derivable_pt_lim (fun h => @?f h + @?g h) _ _ =>
      apply (dlim_plus f g); dlim
  | |- derivable_pt_lim (fun h => @?f h - @?g h) _ _ =>
      apply (dlim_minus f g); dlim
  | |- derivable_pt_lim (fun h => @?f h * @?g h) _ _ =>
      apply (dlim_mult f g); dlim
  | |- derivable_pt_lim (fun h => @?f h / @?g h) _ _ =>
      apply (dlim_div f g); [dlim | dlim | cbn beta]
  | |- derivable_pt_lim (fun h => - @?f h) _ _ =>
      apply (dlim_opp f); dlim
  end.

(** ** The exponential map along one axis *)

Lemma SE3_exp_translation_axis (j : nat) (h : R) :
  (j < 3)%nat ->
  SE3_exp (h *s unit_vector 6 j)
  = mkSE3 (mkSO3 Identity) (h *s unit_vector 3 j).
Proof.
  intros Hj. unfold SE3_exp, SO3_exp.
  assert (Hw : slice 3 3 (h *s unit_vector 6 j) = Zeros).
  { destruct j as [|[|[|j]]]; try lia; cbn; vsplit; ring. }
  rewrite Hw.
  replace (sqrt (dot (@Zeros 3) Zeros)) with 0
    by (cbn; replace (0 * 0 + (0 * 0 + (0 * 0 + 0))) with 0 by ring;
        symmetry; apply sqrt_0).
  destruct (Req_dec_T 0 0) as [_|H]; [|contradiction].
  f_equal.
  destruct j as [|[|[|j]]]; try lia; cbn; vsplit; ring.
Qed.

Lemma sin_Rabs_div (h : R) : h <> 0 -> sin (Rabs h) / Rabs h * h = sin h.
Proof.
  intros Hh. unfold Rabs. destruct (Rcase_abs h) as [Hn|Hp].
  - rewrite sin_neg. field. exact Hh.
  - field. exact Hh.
Qed.

Lemma cos_Rabs (h : R) : cos (Rabs h) = cos h.
Proof.
  unfold Rabs. destruct (Rcase_abs h); [apply cos_neg | reflexivity].
Qed.

Lemma Rabs_mul_self (h : R) : Rabs h * Rabs h = h * h.
Proof.
  unfold Rabs. destruct (Rcase_abs h); ring.
Qed.

Lemma SE3_exp_rotation_axis (j : nat) (h : R) :
  (j < 3)%nat ->
  let K := skew (unit_vector 3 j) in
  SE3_exp (h *s unit_vector 6 (3 + j))
  = mkSE3 (mkSO3 (Identity +m sin h *: K +m (1 - cos h) *: (K *m K))) Zeros.
Proof.
  intros Hj K. unfold SE3_exp, SO3_exp.
  assert (Hw : slice 3 3 (h *s unit_vector 6 (3 + j)) = h *s unit_vector 3 j).
  { destruct j as [|[|[|j]]]; try lia; reflexivity. }
  assert (Hu : slice 0 3 (h *s unit_vector 6 (3 + j)) = h *s Zeros).
  { destruct j as [|[|[|j]]]; try lia; reflexivity. }
  rewrite Hw, Hu.
  assert (Hn : sqrt (dot (h *s unit_vector 3 j) (h *s unit_vector 3 j))
               = Rabs h).
  { rewrite <- sqrt_Rsqr_abs. f_equal. unfold Rsqr.
    destruct j as [|[|[|j]]]; try lia; cbn; ring. }
  rewrite Hn.
  destruct (Req_dec_T (Rabs h) 0) as [H0|H0].
  - assert (h = 0) by (destruct (Req_dec h 0) as [|Hne]; [assumption|];
                       exfalso; exact (Rabs_no_R0 h Hne H0)).
    subst h. f_equal; [f_equal|].
    + subst K. rewrite sin_0, cos_0.
      destruct j as [|[|[|j]]]; try lia; cbn; vsplit; ring.
    + cbn; vsplit; ring.
  - assert (Hh : h <> 0) by (intros ->; apply H0; apply Rabs_R0).
    pose proof (sin_Rabs_div h Hh) as Hs.
    pose proof (cos_Rabs h) as Hc.
    pose proof (Rabs_mul_self h) as Hq.
    f_equal; [f_equal|].
    + subst K. 
      destruct j as [|[|[|j]]]; try lia; cbn; rewrite Hc, Hq, <- Hs;
        vsplit; field; auto.
    + cbn; vsplit; ring.
Qed.
(** ** The perturbation Jacobian *)

Lemma dexp_x_T_ddelta_translation_columns (X : SE3) (i k : nat) :
  (i < 3)%nat -> (k < 12)%nat ->
  derivable_pt_lim
    (fun h => at_ (flatten_SE3 (SE3ConFun_add X (h *s unit_vector 6 i))) k)
    0 (entry (SE3Helper.dexp_x_T_ddelta X) k i).
Proof.
  intros Hi Hk. unfold SE3ConFun_add.
  apply (dlim_ext
           (fun h => at_ (flatten_SE3
                            (mkSE3 (mkSO3 Identity) (h *s unit_vector 3 i)
                             *T X)) k)).
  { intros h. rewrite SE3_exp_translation_axis by exact Hi. reflexivity. }
  destruct_SE3 X.
  destruct i as [|[|[|i]]]; try lia;
    do 12 (try destruct k as [|k]); try lia; cbn;
    (eapply dlim_eq; [dlim | cbn beta; ring]).
Qed.

Lemma dexp_x_T_ddelta_rotation_columns (X : SE3) (j k : nat) :
  (j < 3)%nat -> (k < 12)%nat ->
  derivable_pt_lim
    (fun h =>
       at_ (flatten_SE3 (SE3ConFun_add X (h *s unit_vector 6 (3 + j)))) k)
    0 (entry (SE3Helper.dexp_x_T_ddelta X) k (3 + j)).
Proof.
  intros Hj Hk. unfold SE3ConFun_add.
  apply (dlim_ext
           (fun h =>
              at_ (flatten_SE3
                     (mkSE3 (mkSO3 (Identity
                                    +m sin h *: skew (unit_vector 3 j)
                                    +m (1 - cos h)
                                       *: (skew (unit_vector 3 j)
                                           *m skew (unit_vector 3 j))))
                            Zeros
                      *T X)) k)).
  { intros h. rewrite SE3_exp_rotation_axis by exact Hj. reflexivity. }
  destruct_SE3 X.
  destruct j as [|[|[|j]]]; try lia;
    do 12 (try destruct k as [|k]); try lia; cbn;
    (eapply dlim_eq; [dlim | cbn beta; rewrite ?sin_0, ?cos_0; ring]).
Qed.
(** C8. [dexp_x_T_ddelta T] is the 12x6 Jacobian at [delta = 0] of
    [exp(delta) * T], flattened as the three columns of [R] followed by
    [t]: entry [(k, i)] is the derivative of component [k] along
    perturbation axis [i].  The row block of column [r_j] of [R] is
    [[0 | -skew(r_j)]] and the translation row block is [[I | -skew(t)]]:
    translational perturbations are columns 0-2, rotational ones columns
    3-5. *)
Theorem dexp_x_T_ddelta_is_jacobian (X : SE3) :
  let J := SE3Helper.dexp_x_T_ddelta X in
  let R := get_matrix (get_rotation X) in
  let t := get_translation X in
  (forall j : nat, (j < 3)%nat ->
      get_block (3 * j) 0 3 3 J = mZeros
      /\ get_block (3 * j) 3 3 3 J = mneg (skew (col R j)))
  /\ get_block 9 0 3 3 J = Identity
  /\ get_block 9 3 3 3 J = mneg (skew t)
  /\ (forall i k : nat, (i < 6)%nat -> (k < 12)%nat ->
         derivable_pt_lim
           (fun h =>
              at_ (flatten_SE3 (SE3ConFun_add X (h *s unit_vector 6 i))) k)
           0 (entry J k i)).
Proof.
  intros J R t. split; [|split; [|split]].
  - intros j Hj. subst J R. destruct_SE3 X.
    destruct j as [|[|[|j]]]; try lia; split; reflexivity.
  - subst J. destruct_SE3 X. reflexivity.
  - subst J t. destruct_SE3 X. reflexivity.
  - intros i k Hi Hk. destruct (lt_dec i 3) as [Hlt|Hge].
    + apply dexp_x_T_ddelta_translation_columns; assumption.
    + replace i with (3 + (i - 3))%nat by lia.
      apply dexp_x_T_ddelta_rotation_columns; [lia | assumption].
Qed.

Lemma dexp_x_T_ddelta_is_jacobian_witness :
  (5 < 6)%nat /\ (9 < 12)%nat
  /\ derivable_pt_lim
       (fun h =>
          at_ (flatten_SE3 (SE3ConFun_add pose_a (h *s unit_vector 6 5))) 9)
       0 (entry (SE3Helper.dexp_x_T_ddelta pose_a) 9 5).
Proof.
  split; [lia|]. split; [lia|].
  exact (proj2 (proj2 (proj2 (dexp_x_T_ddelta_is_jacobian pose_a)))
           5%nat 9%nat ltac:(lia) ltac:(lia)).
Defined.

(** ** The inverse-depth observation model *)

Section SE3UVQ_jacobian.

Variables (a00 a01 a10 a11 b0 b1 : R).
Variables (r00 r01 r02 r10 r11 r12 r20 r21 r22 t0 t1 t2 : R).
Variables (u v q : R).
Hypothesis Hq : q <> 0.
Hypothesis Hz : r20 * u + r21 * v + r22 + t2 * q <> 0.

Let cam : LinearCamera :=
  mkLinearCamera ((a00, (a01, tt)), ((a10, (a11, tt)), tt)) (b0, (b1, tt)).
Let X : SE3 :=
  mkSE3 (mkSO3 ((r00, (r01, (r02, tt))),
                ((r10, (r11, (r12, tt))),
                 ((r20, (r21, (r22, tt))), tt))))
        (t0, (t1, (t2, tt))).
Let uvq : Vector 3 := (u, (v, (q, tt))).

Let Hside : forall E : R,
    E * q = r20 * u + r21 * v + r22 + t2 * q -> E <> 0.
Proof. intros E HE H0. apply Hz. rewrite <- HE, H0. ring. Qed.

Ltac uvq_side :=
  try (match goal with
       | |- ?E <> 0 =>
           first [ replace E with q by ring; exact Hq
                 | apply Hside; field;
                   first [ replace (q + 0 * 0) with q by ring
                         | replace (q + 0 * 1) with q by ring ];
                   exact Hq ]
       end).

Ltac uvq_value :=
  unfold Rsqr; field; split;
  [exact Hq | intros H; apply Hz; rewrite <- H; ring].

Lemma SE3UVQ_projection_derivative (i k : nat) :
  (i < 3)%nat -> (k < 2)%nat ->
  derivable_pt_lim
    (fun h =>
       at_ (project3
              (transform X
                 (euclidean_of_uvq
                    (SE3UVQ_add uvq (h *s unit_vector 3 i))))) k)
    0
    (entry (uvq_projection_jacobian X uvq) k i).
Proof.
  intros Hi Hk.
  destruct i as [|[|[|i]]]; try lia; destruct k as [|[|k]]; try lia; cbn;
    (eapply dlim_eq; [dlim|]); uvq_side.
  all: uvq_value.
Qed.

Lemma SE3UVQ_map_derivative (i k : nat) :
  (i < 3)%nat -> (k < 2)%nat ->
  derivable_pt_lim
    (fun h =>
       at_ (SE3UVQ_map cam X (SE3UVQ_add uvq (h *s unit_vector 3 i))) k)
    0 (entry (SE3UVQ_pointJac cam X uvq) k i).
Proof.
  intros Hi Hk.
  destruct i as [|[|[|i]]]; try lia; destruct k as [|[|k]]; try lia; cbn;
    (eapply dlim_eq; [dlim|]); uvq_side.
  all: uvq_value.
Qed.

End SE3UVQ_jacobian.

Lemma depth_times_q (X : SE3) (uvq : Vector 3) :
  at_ uvq 2 <> 0 ->
  at_ (transform X (euclidean_of_uvq uvq)) 2 * at_ uvq 2
  = entry (get_matrix (get_rotation X)) 2 0 * at_ uvq 0
    + entry (get_matrix (get_rotation X)) 2 1 * at_ uvq 1
    + entry (get_matrix (get_rotation X)) 2 2
    + at_ (get_translation X) 2 * at_ uvq 2.
Proof.
  intros Hq. destruct_SE3 X. destruct uvq as [u [v [q []]]].
  cbn in Hq |- *; field; exact Hq.
Qed.

(** C9. For a pose and an inverse-depth point [(u, v, q)] with [q <> 0]
    and positive transformed depth [z]: [SE3UVQ::map] rebuilds the point
    [(u, v, 1) / q], applies the rigid transform, projects and applies the
    camera; [SE3UVQ::pointJac] is the camera Jacobian times
    [(1 / (z * q)) * [[1, 0, -x/z], [0, 1, -y/z]] * M], with [M] made of
    the first two columns of the rotation matrix and the translation;
    that matrix is the derivative of the projection with respect to
    [(u, v, q)], and [pointJac] is the derivative of [map]. *)
Theorem SE3UVQ_pointJac_is_derivative (cam : LinearCamera) (X : SE3)
  (uvq : Vector 3) :
  at_ uvq 2 <> 0 ->
  0 < at_ (transform X (euclidean_of_uvq uvq)) 2 ->
  let p := transform X (euclidean_of_uvq uvq) in
  let J_x := uvq_projection_jacobian X uvq in
  SE3UVQ_map cam X uvq = cam_map cam (project3 p)
  /\ SE3UVQ_pointJac cam X uvq = jacobian cam *m J_x
  /\ (forall i k : nat, (i < 3)%nat -> (k < 2)%nat ->
         derivable_pt_lim
           (fun h =>
              at_ (project3
                     (transform X
                        (euclidean_of_uvq
                           (SE3UVQ_add uvq (h *s unit_vector 3 i))))) k)
           0 (entry J_x k i))
  /\ (forall i k : nat, (i < 3)%nat -> (k < 2)%nat ->
         derivable_pt_lim
           (fun h =>
              at_ (@map _ _ _ _ _ (SE3UVQ cam) X
                     (@add_point _ _ _ _ _ (SE3UVQ cam) uvq
                        (h *s unit_vector 3 i))) k)
           0 (entry (@pointJac _ _ _ _ _ (SE3UVQ cam) X uvq) k i)).
Proof.
  intros Hq Hz p J_x.
  assert (Hzq : entry (get_matrix (get_rotation X)) 2 0 * at_ uvq 0
                + entry (get_matrix (get_rotation X)) 2 1 * at_ uvq 1
                + entry (get_matrix (get_rotation X)) 2 2
                + at_ (get_translation X) 2 * at_ uvq 2 <> 0).
  { rewrite <- depth_times_q by exact Hq. apply Rmult_integral_contrapositive.
    split; [lra | exact Hq]. }
  subst J_x p.
  destruct cam as [[[a00 [a01 []]] [[a10 [a11 []]] []]] [b0 [b1 []]]].
  destruct_SE3 X. destruct uvq as [u [v [q []]]].
  cbn in Hq, Hzq.
  split; [reflexivity|]. split; [reflexivity|]. split.
  - intros i k Hi Hk.
    apply SE3UVQ_projection_derivative; assumption.
  - intros i k Hi Hk. cbn [map add_point pointJac SE3UVQ].
    apply SE3UVQ_map_derivative; assumption.
Qed.

Lemma SE3UVQ_pointJac_is_derivative_witness :
  at_ point_uvq 2 <> 0
  /\ 0 < at_ (transform pose_a (euclidean_of_uvq point_uvq)) 2
  /\ SE3UVQ_pointJac unit_camera pose_a point_uvq
     = jacobian unit_camera *m uvq_projection_jacobian pose_a point_uvq.
Proof.
  assert (Hq : at_ point_uvq 2 <> 0) by (cbn; lra).
  assert (Hz : 0 < at_ (transform pose_a (euclidean_of_uvq point_uvq)) 2)
    by (cbn; lra).
  split; [exact Hq|]. split; [exact Hz|].
  exact (proj1 (proj2 (SE3UVQ_pointJac_is_derivative
                         unit_camera pose_a point_uvq Hq Hz))).
Defined.

(** ** The analytic Jacobian of [SE3ConFun] *)

Lemma dlim_local (f g : R -> R) (x l delta : R) :
  0 < delta ->
  (forall h, Rabs h < delta -> f (x + h) = g (x + h)) ->
  derivable_pt_lim g x l -> derivable_pt_lim f x l.
Proof.
  intros Hdelta Hfg Hg eps Heps.
  destruct (Hg eps Heps) as [delta2 H2].
  assert (Hmin : 0 < Rmin delta delta2)
    by (apply Rmin_pos; [exact Hdelta | apply cond_pos]).
  exists (mkposreal _ Hmin). intros h Hh Hlt. cbn in Hlt.
  rewrite Hfg by (eapply Rlt_le_trans; [exact Hlt | apply Rmin_l]).
  replace (f x) with (g x).
  - apply H2; [exact Hh|].
    eapply Rlt_le_trans; [exact Hlt | apply Rmin_r].
  - pose proof (Hfg 0) as H0. rewrite Rplus_0_r in H0. symmetry. apply H0.
    rewrite Rabs_R0. exact Hdelta.
Qed.

Lemma cos_near_one :
  exists delta : R, 0 < delta /\ forall h, Rabs h < delta -> 0.99999 < cos h.
Proof.
  destruct (continuity_cos 0 0.00001 ltac:(lra)) as [delta [Hdelta H]].
  exists delta. split; [lra|]. intros h Hh.
  destruct (Req_dec h 0) as [->|Hne]; [rewrite cos_0; lra|].
  assert (Hd : Rabs (cos h - cos 0) < 0.00001).
  { apply (H h). split.
    - split; [exact I | congruence].
    - cbn. unfold R_dist. rewrite Rminus_0_r. exact Hh. }
  rewrite cos_0 in Hd. apply Rabs_def2 in Hd. lra.
Qed.

Lemma ln_near_identity (R : Matrix 3 3) (t : Vector 3) :
  0.99999 < 0.5 * (entry R 0 0 + entry R 1 1 + entry R 2 2 - 1) ->
  slice 0 3 (SE3Helper.ln R t) = 0.5 *s deltaR R.
Proof.
  intros Hd. unfold SE3Helper.ln.
  destruct (Rlt_dec _ _) as [_|H]; [|contradiction].
  destruct_mat3 R. destruct_vec3 t. reflexivity.
Qed.

Lemma diff_derivative_at_exact_constraint :
  derivable_pt_lim
    (fun h =>
       at_ (SE3ConFun_diff (SE3ConFun_add turn_x (h *s unit_vector 6 3))
              turn_z turn_zx) 1)
    0 1.
Proof.
  destruct cos_near_one as [delta [Hdelta Hcos]].
  apply (dlim_local _ (fun h => sin h) 0 1 delta Hdelta);
    [|eapply dlim_eq; [dlim | apply cos_0]].
  intros h Hh. rewrite Rplus_0_l.
  unfold SE3ConFun_diff, SE3ConFun_add.
  pose proof (SE3_exp_rotation_axis 0 h ltac:(lia)) as He.
  change (3 + 0)%nat with 3%nat in He. rewrite He. clear He.
  set (D := _ *T _ *T _).
  assert (HR : get_matrix (get_rotation D)
               = (makeVector3 (cos h) 0 (sin h),
                 (makeVector3 0 1 0,
                 (makeVector3 (- sin h) 0 (cos h), tt)))).
  { subst D. cbn. unfold makeVector3. vsplit; ring. }
  rewrite HR.
  change (at_ ?v 1) with (at_ (slice 0 3 v) 1).
  rewrite ln_near_identity.
  - cbn. lra.
  - cbn. specialize (Hcos h Hh). lra.
Qed.

Lemma diff_derivative_T2_at_exact_constraint :
  derivable_pt_lim
    (fun h =>
       at_ (SE3ConFun_diff turn_x turn_z 
              (SE3ConFun_add turn_zx (h *s unit_vector 6 3))) 0)
    0 (-1).
Proof.
  destruct cos_near_one as [delta [Hdelta Hcos]].
  apply (dlim_local _ (fun h => - sin h) 0 (-1) delta Hdelta);
    [|eapply dlim_eq; [dlim | rewrite cos_0; ring]].
  intros h Hh. rewrite Rplus_0_l.
  unfold SE3ConFun_diff, SE3ConFun_add.
  pose proof (SE3_exp_rotation_axis 0 h ltac:(lia)) as He.
  change (3 + 0)%nat with 3%nat in He. rewrite He. clear He.
  set (D := _ *T _ *T _).
  assert (HR : get_matrix (get_rotation D)
               = (makeVector3 1 0 0,
                 (makeVector3 0 (cos h) (sin h),
                 (makeVector3 0 (- sin h) (cos h), tt)))).
  { subst D. cbn. unfold makeVector3. vsplit; ring. }
  rewrite HR.
  change (at_ ?v 0) with (at_ (slice 0 3 v) 0).
  rewrite ln_near_identity.
  - cbn. lra.
  - cbn. specialize (Hcos h Hh). lra.
Qed.

Lemma relative_transform_of_d_diff :
  turn_x *T turn_z *T SE3_inverse turn_zx
  = mkSE3 (mkSO3 ( makeVector3 0 0 (-1),
                 ( makeVector3 (-1) 0 0,
                 ( makeVector3 0 1 0, tt)))) Zeros.
Proof.
  unfold turn_zx, turn_x, turn_z, SE3_mul, SE3_inverse, SO3_mul,
    SO3_inverse, SO3_act.
  cbn. unfold makeVector3. f_equal; [f_equal|]; vsplit; ring.
Qed.

Lemma relative_transform_of_diff :
  (turn_z *T turn_x) *T SE3_inverse turn_zx = SE3_identity.
Proof.
  unfold turn_zx, turn_x, turn_z, SE3_mul, SE3_inverse, SO3_mul,
    SO3_inverse, SO3_act, SE3_identity.
  cbn. f_equal; [f_equal|]; vsplit; ring.
Qed.

Ltac eval_general_branch :=
  unfold SE3Helper.dlnT_dT, SE3Helper.dlnR_dR, SE3Helper.dVinvt_dR;
  cbn [get_rotation get_matrix get_translation];
  cbn [entry row at_ vnth makeVector3 fst snd];
  replace (0.5 * (0 + 0 + 0 - 1)) with (-0.5) by lra;
  destruct (Rlt_dec 0.99999 (-0.5)) as [H|_]; [lra|];
  destruct (Rlt_dec 0.9999 (-0.5)) as [H|_]; [lra|];
  set (theta := acos (-0.5));
  set (sq := sqrt (1 - -0.5 * -0.5));
  set (tn := tan (theta / 2));
  set (tn2 := tan (0.5 * theta));
  set (sn2 := sin (0.5 * theta));
  assert (Hsq : sq <> 0)
    by (subst sq; intros H; apply sqrt_eq_0 in H; lra);
  clearbody theta sq tn tn2 sn2;
  cbn; unfold Po3; field; exact Hsq.

Lemma d_diff_dT1_entry_1_3 :
  entry (SE3ConFun_d_diff_dT1 turn_x turn_z turn_zx) 1 3
  = acos (-0.5) / sqrt (1 - -0.5 * -0.5).
Proof.
  unfold SE3ConFun_d_diff_dT1. rewrite relative_transform_of_d_diff.
  eval_general_branch.
Qed.

Lemma d_diff_dT2_entry_0_3 :
  entry (SE3ConFun_d_diff_dT2 turn_x turn_z turn_zx) 0 3
  = - (acos (-0.5) / sqrt (1 - -0.5 * -0.5)).
Proof.
  unfold SE3ConFun_d_diff_dT2. rewrite relative_transform_of_d_diff.
  eval_general_branch.
Qed.

Lemma chain_at_diff_transform_entry_1_3 :
  entry (SE3Helper.dlnT_dT ((turn_z *T turn_x) *T SE3_inverse turn_zx)
         *m SE3Helper.dDiff_dT1 turn_z turn_zx
         *m SE3Helper.dexp_x_T_ddelta turn_x) 1 3 = 1.
Proof.
  rewrite relative_transform_of_diff.
  unfold SE3Helper.dlnT_dT, SE3Helper.dlnR_dR, SE3Helper.dVinvt_dR.
  cbn [get_rotation get_matrix get_translation SE3_identity].
  cbn [entry row at_ vnth fst snd Identity vbuild Nat.eqb].
  replace (0.5 * (1 + 1 + 1 - 1)) with 1 by lra.
  destruct (Rlt_dec 0.99999 1) as [_|H]; [|lra].
  destruct (Rlt_dec 0.9999 1) as [_|H]; [|lra].
  cbn. lra.
Qed.

Lemma angle_over_sine_above_one : 1 < acos (-0.5) / sqrt (1 - -0.5 * -0.5).
Proof.
  assert (Hth : 0 < acos (-0.5) < PI) by (apply acos_bound_lt; lra).
  assert (Hsin : sin (acos (-0.5)) = sqrt (1 - -0.5 * -0.5)).
  { rewrite sin_acos by lra. unfold Rsqr. reflexivity. }
  assert (Hs : 0 < sqrt (1 - -0.5 * -0.5)) by (apply sqrt_lt_R0; lra).
  pose proof (sin_lt_x (acos (-0.5)) (proj1 Hth)) as Hlt.
  rewrite Hsin in Hlt.
  apply (Rmult_lt_reg_r (sqrt (1 - -0.5 * -0.5))); [exact Hs|].
  unfold Rdiv. rewrite Rmult_assoc, Rinv_l by lra. lra.
Qed.

(** C3 (what the code does).  [d_diff_dT1] and [d_diff_dT2] evaluate the
    logarithm's derivative at [T1 * C * T2^-1], while [diff] takes the
    logarithm of [(C * T1) * T2^-1].  For [T1] a quarter turn about x,
    [C] a quarter turn about z and [T2 = C * T1] the constraint holds
    exactly and [diff]'s transform is the identity, but the Jacobians are
    evaluated at a turn by 120 degrees: the derivative of component 1 of
    [diff] along rotation axis 3 of [T1] is 1, the same chain evaluated
    at [diff]'s transform gives 1, and [d_diff_dT1] has
    [acos(-0.5) / sqrt(0.75) > 1] there; likewise the derivative of
    component 0 along axis 3 of [T2] is -1 and [d_diff_dT2] has a value
    below -1. *)
Theorem SE3ConFun_jacobians_at_other_transform :
  is_rigid turn_x /\ is_rigid turn_z /\ is_rigid turn_zx
  /\ (turn_z *T turn_x) *T SE3_inverse turn_zx = SE3_identity
  /\ turn_x *T turn_z *T SE3_inverse turn_zx
     = mkSE3 (mkSO3 ( makeVector3 0 0 (-1),
                    ( makeVector3 (-1) 0 0,
                    ( makeVector3 0 1 0, tt)))) Zeros
  /\ derivable_pt_lim
       (fun h =>
          at_ (SE3ConFun_diff (SE3ConFun_add turn_x (h *s unit_vector 6 3))
                 turn_z turn_zx) 1)
       0 1
  /\ entry (SE3Helper.dlnT_dT ((turn_z *T turn_x) *T SE3_inverse turn_zx)
            *m SE3Helper.dDiff_dT1 turn_z turn_zx
            *m SE3Helper.dexp_x_T_ddelta turn_x) 1 3 = 1
  /\ entry (SE3ConFun_d_diff_dT1 turn_x turn_z turn_zx) 1 3
     = acos (-0.5) / sqrt (1 - -0.5 * -0.5)
  /\ 1 < entry (SE3ConFun_d_diff_dT1 turn_x turn_z turn_zx) 1 3
  /\ derivable_pt_lim
       (fun h =>
          at_ (SE3ConFun_diff turn_x turn_z
                 (SE3ConFun_add turn_zx (h *s unit_vector 6 3))) 0)
       0 (-1)
  /\ entry (SE3ConFun_d_diff_dT2 turn_x turn_z turn_zx) 0 3 < -1.
Proof.
  assert (Hx : is_rigid turn_x)
    by (split; [cbn; vsplit; ring | unfold det3; cbn; ring]).
  assert (Hz : is_rigid turn_z)
    by (split; [cbn; vsplit; ring | unfold det3; cbn; ring]).
  pose proof angle_over_sine_above_one as Hgt.
  repeat match goal with |- _ /\ _ => split end.
  - exact Hx.
  - exact Hz.
  - split; [cbn; vsplit; ring | unfold det3; cbn; ring].
  - exact relative_transform_of_diff.
  - exact relative_transform_of_d_diff.
  - exact diff_derivative_at_exact_constraint.
  - exact chain_at_diff_transform_entry_1_3.
  - exact d_diff_dT1_entry_1_3.
  - rewrite d_diff_dT1_entry_1_3. exact Hgt.
  - exact diff_derivative_T2_at_exact_constraint.
  - rewrite d_diff_dT2_entry_0_3. lra.
Qed.

(** ** Round trip of the logarithm and the exponential map *)

Section RotationFacts.

Variables r00 r01 r02 r10 r11 r12 r20 r21 r22 : R.
Let M : Matrix 3 3 :=
  ((r00, (r01, (r02, tt))),
   ((r10, (r11, (r12, tt))),
    ((r20, (r21, (r22, tt))), tt))).
Hypothesis Hrot : is_rotation M.

Let tr : R := r00 + r11 + r22.
Let v0 : R := r21 - r12.
Let v1 : R := r02 - r20.
Let v2 : R := r10 - r01.

Lemma rotation_equations :
  (r00 * r00 + r10 * r10 + r20 * r20 = 1
   /\ r01 * r01 + r11 * r11 + r21 * r21 = 1
   /\ r02 * r02 + r12 * r12 + r22 * r22 = 1)
  /\ (r00 * r01 + r10 * r11 + r20 * r21 = 0
      /\ r00 * r02 + r10 * r12 + r20 * r22 = 0
      /\ r01 * r02 + r11 * r12 + r21 * r22 = 0)
  /\ r00 * (r11 * r22 - r12 * r21) - r01 * (r10 * r22 - r12 * r20)
     + r02 * (r10 * r21 - r11 * r20) = 1.
Proof.
  destruct Hrot as [Ho Hd]. subst M. unfold det3 in Hd.
  cbn in Ho, Hd. injection Ho as H1 H2 H3 H4 H5 H6 H7 H8 H9.
  repeat split; lra.
Qed.

Ltac rot_nsatz :=
  destruct rotation_equations as [[N0 [N1 N2]] [[O01 [O02 O12]] D]];
  subst tr v0 v1 v2; nsatz.

Lemma deltaR_norm : v0 * v0 + v1 * v1 + v2 * v2 = (1 + tr) * (3 - tr).
Proof. rot_nsatz. Qed.

Lemma symmetric_part :
  ((1 + tr) * (2 * r00 - (tr - 1)) = v0 * v0
   /\ (1 + tr) * (2 * r11 - (tr - 1)) = v1 * v1
   /\ (1 + tr) * (2 * r22 - (tr - 1)) = v2 * v2)
  /\ ((1 + tr) * (r01 + r10) = v0 * v1
      /\ (1 + tr) * (r02 + r20) = v0 * v2
      /\ (1 + tr) * (r12 + r21) = v1 * v2).
Proof. repeat split; rot_nsatz. Qed.

End RotationFacts.

Section GeneralBranch.

Variable Rm : Matrix 3 3.
Hypothesis Hrot : is_rotation Rm.
Let d : R := 0.5 * (entry Rm 0 0 + entry Rm 1 1 + entry Rm 2 2 - 1).
Hypothesis Hd : -1 < d <= 0.99999.
Let theta : R := acos d.
Let omega : Vector 3 := (theta / (2 * sqrt (1 - d * d))) *s deltaR Rm.

Lemma ln_angle_bounds : 0 < theta < PI.
Proof. apply acos_bound_lt. lra. Qed.

Lemma ln_omega_norm : dot omega omega = theta * theta.
Proof.
  pose proof ln_angle_bounds as Hth.
  subst omega theta d. destruct_mat3 Rm.
  cbn [entry row at_ vnth fst snd] in *.
  pose proof (deltaR_norm _ _ _ _ _ _ _ _ _ Hrot) as Hn.
  cbn zeta in Hn.
  set (d := 0.5 * (r + r3 + r7 - 1)) in *.
  assert (Hs2 : sqrt (1 - d * d) * sqrt (1 - d * d) = 1 - d * d)
    by (apply sqrt_sqrt; nra).
  assert (Hs : 0 < sqrt (1 - d * d)) by (apply sqrt_lt_R0; nra).
  assert (Htr : r + r3 + r7 = 2 * d + 1) by (subst d; lra).
  rewrite Htr in Hn. clearbody d. clear Hrot.
  set (theta := acos d) in *. set (s := sqrt (1 - d * d)) in *.
  clearbody theta s. cbn.
  field_simplify_eq; [|lra]. cbn [pow]. nsatz.
Qed.

Lemma rodrigues_of_ln : SO3_exp omega = mkSO3 Rm.
Proof.
  pose proof ln_angle_bounds as Hth. pose proof ln_omega_norm as Hnorm.
  unfold SO3_exp. rewrite Hnorm, sqrt_square by lra.
  destruct (Req_dec_T theta 0) as [H0|_]; [lra|].
  clear Hnorm. subst omega theta d. destruct_mat3 Rm.
  cbn [entry row at_ vnth fst snd] in *.
  pose proof (symmetric_part _ _ _ _ _ _ _ _ _ Hrot) as
    [[S00 [S11 S22]] [S01 [S02 S12]]].
  cbn zeta in S00, S11, S22, S01, S02, S12.
  set (d := 0.5 * (r + r3 + r7 - 1)) in *.
  assert (Hcos : cos (acos d) = d) by (apply cos_acos; lra).
  assert (Hsin : sin (acos d) = sqrt (1 - d * d)).
  { rewrite sin_acos by lra. unfold Rsqr. reflexivity. }
  assert (Hs2 : sqrt (1 - d * d) * sqrt (1 - d * d) = 1 - d * d)
    by (apply sqrt_sqrt; nra).
  assert (Hs : 0 < sqrt (1 - d * d)) by (apply sqrt_lt_R0; nra).
  assert (Htr : r + r3 + r7 = 2 * d + 1) by (subst d; lra).
  rewrite Htr in S00, S11, S22, S01, S02, S12.
  clearbody d. clear Hrot.
  set (theta := acos d) in *. set (s := sqrt (1 - d * d)) in *.
  clearbody theta s.
  f_equal. cbn. rewrite Hsin, Hcos.
  vsplit; (field_simplify_eq; [|lra]); cbn [pow]; nsatz.
Qed.

End GeneralBranch.





Lemma mmul_Identity_l3 (A : Matrix 3 3) : Identity *m A = A.
Proof. destruct_mat3 A. cbn. vsplit; ring. Qed.







(** ** The near-identity branch: reconstruction up to a tolerance *)



















(** ** Where the round trip as worded fails *)

Lemma SE3_exp_Zeros : SE3_exp Zeros = SE3_identity.
Proof.
  unfold SE3_exp, SO3_exp.
  cbn [slice vbuild at_ vnth Zeros vconst fst snd Nat.add dot vmap2 vsum].
  replace (0 * 0 + (0 * 0 + (0 * 0 + 0))) with 0 by ring. rewrite sqrt_0.
  destruct (Req_dec_T 0 0) as [_|H]; [|contradiction].
  unfold SE3_identity. f_equal. cbn. vsplit; ring.
Qed.








(** * Further properties of the header *)

(** ** Point transformation *)

(** X1. [transform] is a group action: transforming by a product is
    transforming twice, and for a rigid transform the inverse transform
    takes the point back. *)
Theorem transform_action (A B : SE3) (x : Vector 3) :
  transform (A *T B) x = transform A (transform B x)
  /\ (is_rigid A -> transform (SE3_inverse A) (transform A x) = x).
Proof.
  split.
  - destruct_SE3 A. destruct_SE3 B. destruct_vec3 x. cbn. vsplit; ring.
  - unfold is_rigid. intros [Ho _]. destruct_SE3 A. destruct_vec3 x.
    cbn in Ho. injection Ho as H1 H2 H3 H4 H5 H6 H7 H8 H9.
    cbn. vsplit; nsatz.
Qed.

Lemma transform_action_witness :
  is_rigid pose_a
  /\ transform (SE3_inverse pose_a) (transform pose_a (makeVector3 1 2 3))
     = makeVector3 1 2 3.
Proof.
  split; [exact is_rigid_pose_a|].
  exact (proj2 (transform_action pose_a pose_a (makeVector3 1 2 3))
           is_rigid_pose_a).
Defined.

(** ** Zero updates *)

Lemma SO3_exp_Zeros : SO3_exp Zeros = mkSO3 Identity.
Proof.
  unfold SO3_exp.
  cbn [at_ vnth Zeros vconst fst snd dot vmap2 vsum].
  replace (0 * 0 + (0 * 0 + (0 * 0 + 0))) with 0 by ring. rewrite sqrt_0.
  destruct (Req_dec_T 0 0) as [_|H]; [|contradiction]. reflexivity.
Qed.

(** X2. The zero update changes nothing: every [add] of the header
    returns the frame, respectively the point, it was given. *)
Theorem add_zero_is_identity :
  (forall X : SE3,
      SE3_AbstractPoint_add X Zeros = X
      /\ SE3ConFun_add X Zeros = X
      /\ SO3xR3ConFun_add X Zeros = X
      /\ SE3ConFunSO3xR3_add X Zeros = X)
  /\ (forall x : Vector 3, SE3XYZ_add x Zeros = x /\ SE3UVQ_add x Zeros = x).
Proof.
  split.
  - intros X.
    assert (H : SE3_exp Zeros *T X = X)
      by (rewrite SE3_exp_Zeros; apply SE3_mul_identity_l).
    repeat split; try exact H.
    unfold SO3xR3ConFun_add.
    replace (slice 3 3 (@Zeros 6)) with (@Zeros 3) by reflexivity.
    rewrite SO3_exp_Zeros. destruct_SE3 X. unfold SO3_mul. cbn.
    f_equal; [f_equal|]; vsplit; ring.
  - intros x. destruct_vec3 x. split; cbn; vsplit; ring.
Qed.

(** ** Logarithm of a rotation *)

Lemma ln_slice_0 (Rm : Matrix 3 3) (t : Vector 3) :
  slice 0 3 (SE3Helper.ln Rm t) = SE3Helper.ln_so3 Rm.
Proof.
  unfold SE3Helper.ln, SE3Helper.ln_so3.
  destruct (Rlt_dec _ _) as [H|H]; cbn zeta;
    match goal with
    | |- slice 0 3 (set_slice 3 (set_slice 0 Zeros ?w) ?rho) = _ =>
        apply (slice_0_set_slices w rho)
    end.
Qed.

(** X3. The rotation part of the three logarithms is one function:
    components 0-2 of [ln (R, t)] and of [ln_so3xR3] are [ln_so3 R],
    whatever [t] is, in both branches. *)
Theorem ln_rotation_part_is_ln_so3 (Rm : Matrix 3 3) (t : Vector 3) :
  slice 0 3 (SE3Helper.ln Rm t) = SE3Helper.ln_so3 Rm
  /\ slice 0 3 (SE3Helper.ln_so3xR3 (mkSE3 (mkSO3 Rm) t))
     = SE3Helper.ln_so3 Rm.
Proof.
  split; [apply ln_slice_0|].
  unfold SE3Helper.ln_so3xR3. apply slice_0_set_slices.
Qed.

(** X4. The logarithm of the transposed matrix is the negated logarithm:
    [ln_so3 (R^T) = - ln_so3 R] for every matrix, in both branches. *)
Theorem ln_so3_transpose (Rm : Matrix 3 3) :
  SE3Helper.ln_so3 (T Rm) = vneg (SE3Helper.ln_so3 Rm).
Proof.
  destruct_mat3 Rm. unfold SE3Helper.ln_so3.
  cbn [T mbuild vbuild entry row at_ vnth fst snd].
  destruct (Rlt_dec _ _) as [H|H]; cbn; vsplit; ring.
Qed.

(** ** The 3x9 layout *)

(** X5. [M3x9 a B] applied to the column-major flattening of a matrix [S]
    is [trace(S) * a - B * deltaR(S)]: the columns of the diagonal entries
    carry [a], the other six carry the columns of [B] with the signs of
    [deltaR]. *)
Theorem M3x9_action (a : Vector 3) (B S : Matrix 3 3) :
  SE3Helper.M3x9 a B *v flatten3x3 S
  = trace3 S *s a -v B *v deltaR S.
Proof.
  destruct_vec3 a. destruct_mat3 B. destruct_mat3 S.
  unfold trace3. cbn. vsplit; ring.
Qed.

(** ** Jacobians of the relative transform *)

(** X6. [dDiff_dT1 C T2] is the Jacobian of the flattened relative
    transform [(C * T1) * T2^-1] with respect to the flattened [T1]; the
    relative transform is affine in [T1], so differences are mapped
    exactly. *)
Theorem dDiff_dT1_is_jacobian (T1 T1' C T2 : SE3) :
  flatten_SE3 ((C *T T1') *T SE3_inverse T2)
  -v flatten_SE3 ((C *T T1) *T SE3_inverse T2)
  = SE3Helper.dDiff_dT1 C T2 *v (flatten_SE3 T1' -v flatten_SE3 T1).
Proof.
  destruct_SE3 T1. destruct_SE3 T1'. destruct_SE3 C. destruct_SE3 T2.
  cbn. vsplit; ring.
Qed.

Lemma unflatten_flatten_SE3 (X : SE3) : unflatten_SE3 (flatten_SE3 X) = X.
Proof. destruct_SE3 X. reflexivity. Qed.

(** X7. [dDiff_dT2 T1 C T2] is the Jacobian of the flattened relative
    transform [(C * T1) * T2^-1] with respect to the flattened [T2]:
    entry [(k, c)] is the derivative of component [k] along entry [c] of
    [T2]. *)
Theorem dDiff_dT2_is_jacobian (T1 C T2 : SE3) (k c : nat) :
  (k < 12)%nat -> (c < 12)%nat ->
  derivable_pt_lim
    (fun h =>
       at_ (flatten_SE3
              ((C *T T1)
               *T SE3_inverse
                    (unflatten_SE3
                       (flatten_SE3 T2 +v h *s unit_vector 12 c)))) k)
    0 (entry (SE3Helper.dDiff_dT2 T1 C T2) k c).
Proof.
  intros Hk Hc.
  destruct_SE3 T1. destruct_SE3 C. destruct_SE3 T2.
  do 12 (try destruct c as [|c]); try lia;
    do 12 (try destruct k as [|k]); try lia; cbn;
    (eapply dlim_eq; [dlim | cbn beta; ring]).
Qed.

Lemma dDiff_dT2_is_jacobian_witness :
  (10 < 12)%nat /\ (4 < 12)%nat
  /\ derivable_pt_lim
       (fun h =>
          at_ (flatten_SE3
                 ((pose_a *T pose_b)
                  *T SE3_inverse
                       (unflatten_SE3
                          (flatten_SE3 pose_a +v h *s unit_vector 12 4)))) 10)
       0 (entry (SE3Helper.dDiff_dT2 pose_b pose_a pose_a) 10 4).
Proof.
  split; [lia|]. split; [lia|].
  exact (dDiff_dT2_is_jacobian pose_b pose_a pose_a 10 4
           ltac:(lia) ltac:(lia)).
Defined.

(** ** The projective observation models *)

Section Projective_jacobians.

Variables (a00 a01 a10 a11 b0 b1 : R).
Variables (r00 r01 r02 r10 r11 r12 r20 r21 r22 t0 t1 t2 : R).
Variables (p0 p1 p2 : R).
Hypothesis Hz : r20 * p0 + r21 * p1 + r22 * p2 + t2 <> 0.

Let cam : LinearCamera :=
  mkLinearCamera ((a00, (a01, tt)), ((a10, (a11, tt)), tt)) (b0, (b1, tt)).
Let X : SE3 :=
  mkSE3 (mkSO3 ((r00, (r01, (r02, tt))),
                ((r10, (r11, (r12, tt))),
                 ((r20, (r21, (r22, tt))), tt))))
        (t0, (t1, (t2, tt))).
Let xyz : Vector 3 := (p0, (p1, (p2, tt))).

Ltac depth_side :=
  try (match goal with
       | |- ?E <> 0 =>
           rewrite ?sin_0, ?cos_0; intros H; apply Hz; rewrite <- H; ring
       end).

Lemma SE3XYZ_pointJac_derivative (i k : nat) :
  (i < 3)%nat -> (k < 2)%nat ->
  derivable_pt_lim
    (fun h => at_ (SE3XYZ_map cam X (SE3XYZ_add xyz (h *s unit_vector 3 i))) k)
    0 (entry (SE3XYZ_pointJac cam X xyz) k i).
Proof.
  intros Hi Hk.
  destruct i as [|[|[|i]]]; try lia; destruct k as [|[|k]]; try lia; cbn;
    (eapply dlim_eq; [dlim|]); depth_side.
  all: unfold Rsqr; field; intros H; apply Hz; rewrite <- H; ring.
Qed.

Lemma SE3XYZ_frameJac_translation (i k : nat) :
  (i < 3)%nat -> (k < 2)%nat ->
  derivable_pt_lim
    (fun h =>
       at_ (SE3XYZ_map cam (SE3_AbstractPoint_add X (h *s unit_vector 6 i))
              xyz) k)
    0 (entry (SE3XYZ_frameJac cam X xyz) k i).
Proof.
  intros Hi Hk. unfold SE3_AbstractPoint_add.
  apply (dlim_ext
           (fun h => at_ (SE3XYZ_map cam
                            (mkSE3 (mkSO3 Identity) (h *s unit_vector 3 i)
                             *T X) xyz) k)).
  { intros h. rewrite SE3_exp_translation_axis by exact Hi. reflexivity. }
  destruct i as [|[|[|i]]]; try lia; destruct k as [|[|k]]; try lia; cbn;
    (eapply dlim_eq; [dlim|]); depth_side.
  all: unfold Rsqr, Po2; field; intros H; apply Hz; rewrite <- H; ring.
Qed.

Lemma SE3XYZ_frameJac_rotation (j k : nat) :
  (j < 3)%nat -> (k < 2)%nat ->
  derivable_pt_lim
    (fun h =>
       at_ (SE3XYZ_map cam
              (SE3_AbstractPoint_add X (h *s unit_vector 6 (3 + j))) xyz) k)
    0 (entry (SE3XYZ_frameJac cam X xyz) k (3 + j)).
Proof.
  intros Hj Hk. unfold SE3_AbstractPoint_add.
  apply (dlim_ext
           (fun h =>
              at_ (SE3XYZ_map cam
                     (mkSE3 (mkSO3 (Identity
                                    +m sin h *: skew (unit_vector 3 j)
                                    +m (1 - cos h)
                                       *: (skew (unit_vector 3 j)
                                           *m skew (unit_vector 3 j))))
                            Zeros
                      *T X) xyz) k)).
  { intros h. rewrite SE3_exp_rotation_axis by exact Hj. reflexivity. }
  destruct j as [|[|[|j]]]; try lia; destruct k as [|[|k]]; try lia; cbn;
    (eapply dlim_eq; [dlim|]); depth_side.
  all: rewrite ?sin_0, ?cos_0; unfold Rsqr, Po2; field;
    intros H; apply Hz; rewrite <- H; ring.
Qed.

End Projective_jacobians.

(** X8. The analytic Jacobians of [SE3XYZ] are the derivatives of its
    [map]: for a point of non-zero transformed depth, entry [(k, i)] of
    [frameJac] is the derivative of component [k] of
    [map (add (T, h * e_i), x)] at [h = 0], and entry [(k, i)] of
    [pointJac] that of [map (T, add (x, h * e_i))]. *)
Theorem SE3XYZ_jacobians_are_derivatives (cam : LinearCamera) (X : SE3)
  (xyz : Vector 3) :
  at_ (transform X xyz) 2 <> 0 ->
  (forall i k : nat, (i < 6)%nat -> (k < 2)%nat ->
      derivable_pt_lim
        (fun h =>
           at_ (@map _ _ _ _ _ (SE3XYZ cam)
                  (@add _ _ _ _ _ (SE3XYZ cam) X (h *s unit_vector 6 i))
                  xyz) k)
        0 (entry (@frameJac _ _ _ _ _ (SE3XYZ cam) X xyz) k i))
  /\ (forall i k : nat, (i < 3)%nat -> (k < 2)%nat ->
         derivable_pt_lim
           (fun h =>
              at_ (@map _ _ _ _ _ (SE3XYZ cam) X
                     (@add_point _ _ _ _ _ (SE3XYZ cam) xyz
                        (h *s unit_vector 3 i))) k)
           0 (entry (@pointJac _ _ _ _ _ (SE3XYZ cam) X xyz) k i)).
Proof.
  intros Hz.
  destruct cam as [[[a00 [a01 []]] [[a10 [a11 []]] []]] [b0 [b1 []]]].
  destruct_SE3 X. destruct xyz as [p0 [p1 [p2 []]]].
  cbn in Hz.
  assert (Hz' : r5 * p0 + r6 * p1 + r7 * p2 + r10 <> 0)
    by (intros H; apply Hz; lra).
  cbn [map add add_point frameJac pointJac SE3XYZ]. split.
  - intros i k Hi Hk. destruct (lt_dec i 3) as [Hlt|Hge].
    + apply SE3XYZ_frameJac_translation; assumption.
    + replace i with (3 + (i - 3))%nat by lia.
      apply SE3XYZ_frameJac_rotation; [exact Hz' | lia | exact Hk].
  - intros i k Hi Hk. apply SE3XYZ_pointJac_derivative; assumption.
Qed.

Lemma SE3XYZ_jacobians_are_derivatives_witness :
  at_ (transform pose_a (makeVector3 0 0 5)) 2 <> 0
  /\ derivable_pt_lim
       (fun h =>
          at_ (@map _ _ _ _ _ (SE3XYZ unit_camera) pose_a
                 (@add_point _ _ _ _ _ (SE3XYZ unit_camera)
                    (makeVector3 0 0 5) (h *s unit_vector 3 0))) 0)
       0 (entry (@pointJac _ _ _ _ _ (SE3XYZ unit_camera) pose_a
                   (makeVector3 0 0 5)) 0 0).
Proof.
  assert (Hz : at_ (transform pose_a (makeVector3 0 0 5)) 2 <> 0)
    by (cbn; lra).
  split; [exact Hz|].
  exact (proj2 (SE3XYZ_jacobians_are_derivatives unit_camera pose_a
                  (makeVector3 0 0 5) Hz) 0%nat 0%nat ltac:(lia) ltac:(lia)).
Defined.

(** X9. [SE3UVQ] is [SE3XYZ] at the point [(u, v, 1) / q]: the two [map]s
    and the two [frameJac]s agree there, so for [q <> 0] and non-zero
    transformed depth [SE3UVQ::frameJac] is the derivative of
    [map (add (T, h * e_i), uvq)] at [h = 0]; and [SE3UVQ::pointJac] is
    [SE3XYZ::pointJac] times the Jacobian of [(u, v, q) |-> (u, v, 1) / q]
    (the chain rule). *)
Theorem SE3UVQ_through_SE3XYZ (cam : LinearCamera) (X : SE3)
  (uvq : Vector 3) :
  at_ uvq 2 <> 0 ->
  at_ (transform X (euclidean_of_uvq uvq)) 2 <> 0 ->
  @map _ _ _ _ _ (SE3UVQ cam) X uvq
  = @map _ _ _ _ _ (SE3XYZ cam) X (euclidean_of_uvq uvq)
  /\ @frameJac _ _ _ _ _ (SE3UVQ cam) X uvq
     = @frameJac _ _ _ _ _ (SE3XYZ cam) X (euclidean_of_uvq uvq)
  /\ @pointJac _ _ _ _ _ (SE3UVQ cam) X uvq
     = @pointJac _ _ _ _ _ (SE3XYZ cam) X (euclidean_of_uvq uvq)
       *m euclidean_of_uvq_jacobian uvq
  /\ (forall i k : nat, (i < 6)%nat -> (k < 2)%nat ->
         derivable_pt_lim
           (fun h =>
              at_ (@map _ _ _ _ _ (SE3UVQ cam)
                     (@add _ _ _ _ _ (SE3UVQ cam) X (h *s unit_vector 6 i))
                     uvq) k)
           0 (entry (@frameJac _ _ _ _ _ (SE3UVQ cam) X uvq) k i)).
Proof.
  intros Hq Hz.
  cbn [map add add_point frameJac pointJac SE3XYZ SE3UVQ].
  split; [reflexivity|]. split; [reflexivity|]. split.
  - destruct cam as [[[a00 [a01 []]] [[a10 [a11 []]] []]] [b0 [b1 []]]].
    destruct_SE3 X. destruct uvq as [u [v [q []]]].
    cbn in Hq, Hz.
    assert (Hz' : r5 * u + r6 * v + r7 + r10 * q <> 0).
    { intros H. apply Hz.
      replace (r5 * (1 / q * u) + (r6 * (1 / q * v) + (r7 * (1 / q * 1) + 0))
               + r10)
        with ((r5 * u + r6 * v + r7 + r10 * q) / q) by (field; exact Hq).
      rewrite H. field. exact Hq. }
    unfold euclidean_of_uvq_jacobian, euclidean_of_uvq. cbn.
    vsplit; field; (split; [exact Hq|]);
      intros H; apply Hz'; rewrite <- H; ring.
  - intros i k Hi Hk.
    change (derivable_pt_lim
              (fun h =>
                 at_ (SE3XYZ_map cam
                        (SE3_AbstractPoint_add X (h *s unit_vector 6 i))
                        (euclidean_of_uvq uvq)) k)
              0 (entry (SE3XYZ_frameJac cam X (euclidean_of_uvq uvq)) k i)).
    clear Hq. revert Hz. generalize (euclidean_of_uvq uvq). intros p Hz.
    destruct cam as [[[a00 [a01 []]] [[a10 [a11 []]] []]] [b0 [b1 []]]].
    destruct_SE3 X. destruct p as [p0 [p1 [p2 []]]]. cbn in Hz.
    assert (Hz' : r5 * p0 + r6 * p1 + r7 * p2 + r10 <> 0)
      by (intros H; apply Hz; lra).
    destruct (lt_dec i 3) as [Hlt|Hge].
    + apply SE3XYZ_frameJac_translation; assumption.
    + replace i with (3 + (i - 3))%nat by lia.
      apply SE3XYZ_frameJac_rotation; [exact Hz' | lia | exact Hk].
Qed.

Lemma SE3UVQ_through_SE3XYZ_witness :
  at_ point_uvq 2 <> 0
  /\ at_ (transform pose_a (euclidean_of_uvq point_uvq)) 2 <> 0
  /\ @pointJac _ _ _ _ _ (SE3UVQ unit_camera) pose_a point_uvq
     = @pointJac _ _ _ _ _ (SE3XYZ unit_camera) pose_a
         (euclidean_of_uvq point_uvq)
       *m euclidean_of_uvq_jacobian point_uvq.
Proof.
  assert (Hq : at_ point_uvq 2 <> 0) by (cbn; lra).
  assert (Hz : at_ (transform pose_a (euclidean_of_uvq point_uvq)) 2 <> 0)
    by (cbn; lra).
  split; [exact Hq|]. split; [exact Hz|].
  exact (proj1 (proj2 (proj2 (SE3UVQ_through_SE3XYZ unit_camera pose_a
                                point_uvq Hq Hz)))).
Defined.

(** ** Invariance of the constraint residuals *)

Lemma SE3_inverse_mul (A B : SE3) :
  is_rigid A -> SE3_inverse (A *T B) = SE3_inverse B *T SE3_inverse A.
Proof.
  unfold is_rigid. intros [Ho _]. destruct_SE3 A. destruct_SE3 B.
  cbn in Ho. injection Ho as H1 H2 H3 H4 H5 H6 H7 H8 H9.
  unfold SE3_mul, SE3_inverse, SO3_mul, SO3_act, SO3_inverse.
  cbn. f_equal; [f_equal|]; vsplit; nsatz.
Qed.

Lemma relative_transform_right_invariant (T1 C T2 X : SE3) :
  is_rigid T2 -> is_rigid X ->
  (C *T (T1 *T X)) *T SE3_inverse (T2 *T X) = (C *T T1) *T SE3_inverse T2.
Proof.
  intros H2 HX. rewrite SE3_inverse_mul by exact H2.
  rewrite <- (SE3_mul_assoc C T1 X).
  rewrite (SE3_mul_assoc (C *T T1) X).
  rewrite <- (SE3_mul_assoc X (SE3_inverse X)).
  rewrite SE3_inverse_right by exact HX.
  rewrite SE3_mul_identity_l. reflexivity.
Qed.

(** X10. The residuals see only the relative pose: moving both absolute
    poses by the same rigid transform on the right, [T1 * X] and
    [T2 * X], leaves [diff] unchanged, for [SE3ConFun] and for both
    <So3,R3> classes. *)
Theorem diff_right_invariant (T1 C T2 X : SE3) :
  is_rigid T2 -> is_rigid X ->
  @diff _ _ SE3ConFun (T1 *T X) C (T2 *T X) = @diff _ _ SE3ConFun T1 C T2
  /\ @diff _ _ SO3xR3ConFun (T1 *T X) C (T2 *T X)
     = @diff _ _ SO3xR3ConFun T1 C T2
  /\ @diff _ _ SE3ConFunSO3xR3 (T1 *T X) C (T2 *T X)
     = @diff _ _ SE3ConFunSO3xR3 T1 C T2.
Proof.
  intros H2 HX. cbn [diff SE3ConFun SO3xR3ConFun SE3ConFunSO3xR3].
  unfold SE3ConFun_diff, SO3xR3ConFun_diff, SE3ConFunSO3xR3_diff.
  rewrite relative_transform_right_invariant by assumption.
  repeat split.
Qed.

Lemma diff_right_invariant_witness :
  is_rigid pose_a /\ is_rigid pose_b
  /\ @diff _ _ SE3ConFun (pose_b *T pose_b) pose_x (pose_a *T pose_b)
     = @diff _ _ SE3ConFun pose_b pose_x pose_a.
Proof.
  split; [exact is_rigid_pose_a|]. split; [exact is_rigid_pose_b|].
  exact (proj1 (diff_right_invariant pose_b pose_x pose_a pose_b
                  is_rigid_pose_a is_rigid_pose_b)).
Defined.

(** ** Translational updates of the <So3,R3> constraint *)

Lemma SO3xR3ConFun_add_translation (X : SE3) (u : Vector 3) :
  SO3xR3ConFun_add X (stack u Zeros)
  = mkSE3 (get_rotation X) (get_translation X +v u).
Proof.
  unfold SO3xR3ConFun_add.
  assert (Hw : slice 3 3 (stack u Zeros) = Zeros)
    by (destruct_vec3 u; reflexivity).
  assert (Hu : slice 0 3 (stack u Zeros) = u)
    by (destruct_vec3 u; reflexivity).
  rewrite Hw, Hu, SO3_exp_Zeros. destruct X as [[M] t].
  unfold SO3_mul. cbn [get_rotation get_matrix get_translation].
  rewrite mmul_Identity_l3. reflexivity.
Qed.

Lemma SO3xR3ConFun_diff_translate_T1 (T1 C T2 : SE3) (u : Vector 3) :
  SO3xR3ConFun_diff
    (mkSE3 (get_rotation T1) (get_translation T1 +v u)) C T2
  = SO3xR3ConFun_diff T1 C T2
    +v stack Zeros (get_matrix (get_rotation C) *v u).
Proof.
  destruct T1 as [[M1] t1]. destruct C as [[Mc] tc]. destruct T2 as [[M2] t2].
  unfold SO3xR3ConFun_diff, SE3Helper.ln_so3xR3.
  cbn [SE3_mul SE3_inverse SO3_mul SO3_inverse SO3_act get_rotation
       get_matrix get_translation].
  generalize (SE3Helper.ln_so3 (Mc *m M1 *m T M2)). intros w.
  destruct_vec3 w. destruct_mat3 M1. destruct_mat3 Mc. destruct_mat3 M2.
  destruct_vec3 t1. destruct_vec3 tc. destruct_vec3 t2. destruct_vec3 u.
  cbn. vsplit; ring.
Qed.

Lemma SO3xR3ConFun_diff_translate_T2 (T1 C T2 : SE3) (u : Vector 3) :
  SO3xR3ConFun_diff T1 C
    (mkSE3 (get_rotation T2) (get_translation T2 +v u))
  = SO3xR3ConFun_diff T1 C T2
    +v stack Zeros
         (vneg (get_matrix (get_rotation C) *m get_matrix (get_rotation T1)
                *m T (get_matrix (get_rotation T2)) *v u)).
Proof.
  destruct T1 as [[M1] t1]. destruct C as [[Mc] tc]. destruct T2 as [[M2] t2].
  unfold SO3xR3ConFun_diff, SE3Helper.ln_so3xR3.
  cbn [SE3_mul SE3_inverse SO3_mul SO3_inverse SO3_act get_rotation
       get_matrix get_translation].
  generalize (SE3Helper.ln_so3 (Mc *m M1 *m T M2)). intros w.
  destruct_vec3 w. destruct_mat3 M1. destruct_mat3 Mc. destruct_mat3 M2.
  destruct_vec3 t1. destruct_vec3 tc. destruct_vec3 t2. destruct_vec3 u.
  cbn. vsplit; ring.
Qed.

(** X11. A translational update of [SO3xR3ConFun] moves the residual
    linearly and leaves its rotation part alone: with [delta = [u; 0]],
    [diff (add T1 delta) C T2 = diff T1 C T2 + [0; Rc u]] and
    [diff T1 C (add T2 delta) = diff T1 C T2 - [0; Rc R1 R2^T u]]. *)
Theorem SO3xR3ConFun_translation_update (T1 C T2 : SE3) (u : Vector 3) :
  let Rc := get_matrix (get_rotation C) in
  let R1 := get_matrix (get_rotation T1) in
  let R2 := get_matrix (get_rotation T2) in
  @diff _ _ SO3xR3ConFun (@con_add _ _ SO3xR3ConFun T1 (stack u Zeros)) C T2
  = @diff _ _ SO3xR3ConFun T1 C T2 +v stack Zeros (Rc *v u)
  /\ @diff _ _ SO3xR3ConFun T1 C
       (@con_add _ _ SO3xR3ConFun T2 (stack u Zeros))
     = @diff _ _ SO3xR3ConFun T1 C T2
       +v stack Zeros (vneg (Rc *m R1 *m T R2 *v u)).
Proof.
  intros Rc R1 R2. cbn [diff con_add SO3xR3ConFun].
  rewrite !SO3xR3ConFun_add_translation. split.
  - apply SO3xR3ConFun_diff_translate_T1.
  - apply SO3xR3ConFun_diff_translate_T2.
Qed.

(** ** Scale ambiguity of the projective predictions *)

Lemma project3_scale (p : Vector 3) (s : R) :
  s <> 0 -> at_ p 2 <> 0 -> project3 (s *s p) = project3 p.
Proof.
  intros Hs Hz. destruct_vec3 p. cbn in Hz. unfold project3, makeVector2.
  cbn. vsplit; field; auto.
Qed.

Lemma project2_scale (p : Vector 2) (s : R) :
  s <> 0 -> at_ p 1 <> 0 -> project2 (s *s p) = project2 p.
Proof.
  intros Hs Hz. destruct p as [p0 [p1 []]]. cbn in Hz. unfold project2.
  cbn. vsplit; field; auto.
Qed.

Lemma SO3_act_scale (Rm : SO3) (t x : Vector 3) (s : R) :
  SO3_act Rm (s *s x) +v s *s t = s *s (SO3_act Rm x +v t).
Proof.
  destruct Rm as [M]. destruct_mat3 M. destruct_vec3 t. destruct_vec3 x.
  cbn. vsplit; ring.
Qed.

Lemma SO2_act_scale (Rp : SO2) (t x : Vector 2) (s : R) :
  SO2_act Rp (s *s x) +v s *s t = s *s (SO2_act Rp x +v t).
Proof.
  destruct Rp as [[[p00 [p01 []]] [[p10 [p11 []]] []]]].
  destruct t as [t0 [t1 []]]. destruct x as [x0 [x1 []]].
  cbn. vsplit; ring.
Qed.

Lemma euclidean_of_uvq_scale (u v q s : R) :
  s <> 0 -> q <> 0 ->
  euclidean_of_uvq (makeVector3 u v (q / s))
  = s *s euclidean_of_uvq (makeVector3 u v q).
Proof.
  intros Hs Hq. unfold euclidean_of_uvq. cbn. vsplit; field; auto.
Qed.

(** X12. The predictions cannot see the global scale.  Scaling the
    translation of the frame and the point by the same [s <> 0] leaves the
    prediction of [SE3XYZ] and of [SE2XY] unchanged when the transformed
    point has a non-zero last coordinate; for [SE3UVQ] the inverse depth is
    divided by [s] instead. *)
Theorem prediction_scale_ambiguity
  (cam : LinearCamera) (Rm : SO3) (t x : Vector 3)
  (Rp : SO2) (tp xp : Vector 2) (u v q s : R) :
  s <> 0 ->
  (at_ (transform (mkSE3 Rm t) x) 2 <> 0 ->
   SE3XYZ_map cam (mkSE3 Rm (s *s t)) (s *s x)
   = SE3XYZ_map cam (mkSE3 Rm t) x)
  /\ (q <> 0 ->
      at_ (transform (mkSE3 Rm t) (euclidean_of_uvq (makeVector3 u v q))) 2
      <> 0 ->
      SE3UVQ_map cam (mkSE3 Rm (s *s t)) (makeVector3 u v (q / s))
      = SE3UVQ_map cam (mkSE3 Rm t) (makeVector3 u v q))
  /\ (at_ (SO2_act Rp xp +v tp) 1 <> 0 ->
      SE2XY_map (mkSE2 Rp (s *s tp)) (s *s xp) = SE2XY_map (mkSE2 Rp tp) xp).
Proof.
  intros Hs.
  unfold SE3XYZ_map, SE3UVQ_map, SE2XY_map, transform.
  cbn [get_rotation get_translation SE2_get_rotation SE2_get_translation].
  repeat split.
  - intros Hz. rewrite SO3_act_scale, project3_scale by assumption.
    reflexivity.
  - intros Hq Hz. fold (euclidean_of_uvq (makeVector3 u v (q / s))).
    fold (euclidean_of_uvq (makeVector3 u v q)).
    rewrite euclidean_of_uvq_scale by assumption.
    rewrite SO3_act_scale, project3_scale by assumption. reflexivity.
  - intros Hz. rewrite SO2_act_scale, project2_scale by assumption.
    reflexivity.
Qed.

Lemma prediction_scale_ambiguity_witness :
  2 <> 0
  /\ at_ (transform pose_a (makeVector3 1 2 3)) 2 <> 0
  /\ SE3XYZ_map unit_camera
       (mkSE3 (get_rotation pose_a) (2 *s get_translation pose_a))
       (2 *s makeVector3 1 2 3)
     = SE3XYZ_map unit_camera
         (mkSE3 (get_rotation pose_a) (get_translation pose_a))
         (makeVector3 1 2 3).
Proof.
  assert (H2 : 2 <> 0) by lra.
  assert (Hz : at_ (transform pose_a (makeVector3 1 2 3)) 2 <> 0)
    by (cbn; lra).
  split; [exact H2|]. split; [exact Hz|].
  exact (proj1 (prediction_scale_ambiguity unit_camera (get_rotation pose_a)
                  (get_translation pose_a) (makeVector3 1 2 3)
                  (mkSO2 Identity) Zeros Zeros 0 0 1 2 H2) Hz).
Defined.

(** ** The rotation logarithm against the exponential map *)

Lemma SO3_exp_trace_deltaR (w : Vector 3) (a b : R) :
  let M := Identity +m a *: skew w +m b *: (skew w *m skew w) in
  0.5 * (entry M 0 0 + entry M 1 1 + entry M 2 2 - 1) = 1 - b * dot w w
  /\ deltaR M = (2 * a) *s w.
Proof.
  destruct_vec3 w. cbn. split; [lra | unfold deltaR, makeVector3; cbn; vsplit; ring].
Qed.

(** X13. In the general branch [ln_so3] and the rotation exponential are
    inverse to each other: [ln_so3 (exp w) = w] for a rotation vector of
    length [theta] in [(0, pi)] with [cos theta <= 0.99999], and
    [exp (ln_so3 R) = R] for a rotation [R] with [-1 < d <= 0.99999]. *)
Theorem ln_so3_inverts_exp (w : Vector 3) (Rm : Matrix 3 3) :
  (0 < sqrt (dot w w) < PI -> cos (sqrt (dot w w)) <= 0.99999 ->
   SE3Helper.ln_so3 (get_matrix (SO3_exp w)) = w)
  /\ (is_rotation Rm ->
      -1 < 0.5 * (entry Rm 0 0 + entry Rm 1 1 + entry Rm 2 2 - 1) <= 0.99999 ->
      SO3_exp (SE3Helper.ln_so3 Rm) = mkSO3 Rm).
Proof.
  split.
  - intros Hth Hc. unfold SO3_exp.
    set (theta := sqrt (dot w w)) in *.
    destruct (Req_dec_T theta 0) as [H0|_]; [lra|].
    cbn [get_matrix]. unfold SE3Helper.ln_so3.
    destruct (SO3_exp_trace_deltaR w (sin theta / theta)
                ((1 - cos theta) / (theta * theta))) as [Hd HdR].
    cbn zeta in Hd, HdR. rewrite Hd, HdR.
    assert (Hww : dot w w = theta * theta).
    { subst theta. rewrite sqrt_sqrt; [reflexivity|].
      destruct_vec3 w. cbn. nra. }
    rewrite Hww.
    replace (1 - (1 - cos theta) / (theta * theta) * (theta * theta))
      with (cos theta) by (field; lra).
    destruct (Rlt_dec 0.99999 (cos theta)) as [H|_]; [lra|].
    rewrite acos_cos by lra.
    assert (Hsin : 0 < sin theta) by (apply sin_gt_0; lra).
    assert (Hsq : sqrt (1 - cos theta * cos theta) = sin theta).
    { replace (1 - cos theta * cos theta) with (sin theta * sin theta).
      - apply sqrt_square. lra.
      - pose proof (sin2_cos2 theta) as H. unfold Rsqr in H. lra. }
    rewrite Hsq. destruct_vec3 w. cbn. vsplit; field; lra.
  - intros Hrot Hd. unfold SE3Helper.ln_so3.
    destruct (Rlt_dec _ _) as [H|_]; [lra|].
    exact (rodrigues_of_ln Rm Hrot Hd).
Qed.

Lemma ln_so3_inverts_exp_witness :
  is_rotation Rz90
  /\ -1 < 0.5 * (entry Rz90 0 0 + entry Rz90 1 1 + entry Rz90 2 2 - 1)
     <= 0.99999
  /\ SO3_exp (SE3Helper.ln_so3 Rz90) = mkSO3 Rz90.
Proof.
  assert (Hd : -1 < 0.5 * (entry Rz90 0 0 + entry Rz90 1 1 + entry Rz90 2 2 - 1)
               <= 0.99999) by (cbn; lra).
  split; [exact is_rigid_pose_a|]. split; [exact Hd|].
  exact (proj2 (ln_so3_inverts_exp Zeros Rz90) is_rigid_pose_a Hd).
Defined.

(** ** The Jacobian of the rotation logarithm *)

Lemma dlim_comp (f g : R -> R) (x l1 l2 : R) :
  derivable_pt_lim f x l1 -> derivable_pt_lim g (f x) l2 ->
  derivable_pt_lim (fun h => g (f h)) x (l2 * l1).
Proof. intros Hf Hg. exact (derivable_pt_lim_comp f g x l1 l2 Hf Hg). Qed.

Lemma dlim_acos (f : R -> R) (x l : R) :
  derivable_pt_lim f x l -> -1 < f x < 1 ->
  derivable_pt_lim (fun h => acos (f h)) x
    (-1 / sqrt (1 - f x * f x) * l).
Proof.
  intros Hf Hr. apply (dlim_comp f acos); [exact Hf|].
  apply (derive_pt_eq_1 acos (f x) _ (derivable_pt_acos (f x) Hr)).
  rewrite derive_pt_acos. unfold Rsqr. reflexivity.
Qed.

Lemma dlim_sqrt (f : R -> R) (x l : R) :
  derivable_pt_lim f x l -> 0 < f x ->
  derivable_pt_lim (fun h => sqrt (f h)) x (/ (2 * sqrt (f x)) * l).
Proof.
  intros Hf Hr. apply (dlim_comp f sqrt); [exact Hf|].
  apply derivable_pt_lim_sqrt. exact Hr.
Qed.

Lemma dlim_tan (f : R -> R) (x l : R) :
  derivable_pt_lim f x l -> - PI / 2 < f x < PI / 2 ->
  derivable_pt_lim (fun h => tan (f h)) x
    ((1 + tan (f x) * tan (f x)) * l).
Proof.
  intros Hf Hr. apply (dlim_comp f tan); [exact Hf|].
  apply (derive_pt_eq_1 tan (f x) _ (derivable_pt_tan (f x) Hr)).
  rewrite derive_pt_tan. ring.
Qed.

(** An affine function of [h] stays on its side of a threshold for small
    [h]. *)
Lemma affine_side (d tau c : R) :
  d <> c ->
  exists delta, 0 < delta
    /\ forall h, Rabs h < delta ->
         (c < d -> c < d + h * tau) /\ (d < c -> d + h * tau < c).
Proof.
  intros Hdc.
  assert (Hpos : 0 < Rabs (d - c)) by (apply Rabs_pos_lt; lra).
  assert (Ht : 0 < Rabs tau + 1) by (pose proof (Rabs_pos tau); lra).
  exists (Rabs (d - c) / (Rabs tau + 1)). split.
  - apply Rdiv_lt_0_compat; assumption.
  - intros h Hh.
    assert (Hb : Rabs (h * tau) < Rabs (d - c)).
    { rewrite Rabs_mult.
      apply Rle_lt_trans with (Rabs h * (Rabs tau + 1)).
      - pose proof (Rabs_pos h). nra.
      - apply Rmult_lt_reg_r with (/ (Rabs tau + 1)).
        + apply Rinv_0_lt_compat; exact Ht.
        + rewrite Rmult_assoc, Rinv_r by lra. rewrite Rmult_1_r.
          exact Hh. }
    revert Hb. unfold Rabs.
    destruct (Rcase_abs (h * tau)), (Rcase_abs (d - c)); intros; lra.
Qed.

Lemma ln_factor_derivative (d tau : R) :
  -1 < d < 1 ->
  derivable_pt_lim (fun h => ln_factor (d + h * tau)) 0
    ((d * acos d - sqrt (1 - d * d)) / (2 * Po3 (sqrt (1 - d * d))) * tau).
Proof.
  intros Hd. unfold ln_factor.
  assert (Hs : 0 < sqrt (1 - d * d)) by (apply sqrt_lt_R0; nra).
  assert (Hs2 : sqrt (1 - d * d) * sqrt (1 - d * d) = 1 - d * d)
    by (apply sqrt_sqrt; nra).
  assert (Hd0 : d + 0 * tau = d) by ring.
  eapply dlim_eq.
  - apply (dlim_div (fun h => acos (d + h * tau))
                    (fun h => 2 * sqrt (1 - (d + h * tau) * (d + h * tau)))).
    + apply (dlim_acos (fun h => d + h * tau)); [dlim|]. cbn beta. lra.
    + apply (dlim_mult (fun _ => 2)
               (fun h => sqrt (1 - (d + h * tau) * (d + h * tau))));
        [dlim|].
      apply (dlim_sqrt (fun h => 1 - (d + h * tau) * (d + h * tau)));
        [dlim|]. cbn beta. rewrite Hd0. nra.
    + cbn beta. rewrite Hd0. lra.
  - cbn beta. rewrite !Hd0. unfold Rsqr, Po3.
    set (s := sqrt (1 - d * d)) in *. set (theta := acos d).
    clearbody s theta.
    field_simplify_eq; [|lra]. cbn [pow]. nsatz.
Qed.

Lemma perturbed_rotation (Rm E : Matrix 3 3) (h : R) :
  0.5 * (entry (Rm +m h *: E) 0 0 + entry (Rm +m h *: E) 1 1
         + entry (Rm +m h *: E) 2 2 - 1)
  = 0.5 * (entry Rm 0 0 + entry Rm 1 1 + entry Rm 2 2 - 1)
    + h * (0.5 * trace3 E)
  /\ deltaR (Rm +m h *: E) = deltaR Rm +v h *s deltaR E.
Proof.
  destruct_mat3 Rm. destruct_mat3 E. unfold trace3, deltaR, makeVector3.
  cbn. split; [lra | vsplit; ring].
Qed.

Lemma M3x9_component (a : Vector 3) (B S : Matrix 3 3) (k : nat) :
  (k < 3)%nat ->
  at_ (SE3Helper.M3x9 a B *v flatten3x3 S) k
  = trace3 S * at_ a k - at_ (B *v deltaR S) k.
Proof.
  intros Hk. destruct_vec3 a. destruct_mat3 B. destruct_mat3 S.
  unfold trace3. destruct k as [|[|[|k]]]; try lia; cbn; ring.
Qed.

(** X14. [dlnR_dR] is the Jacobian of [ln_so3] with respect to the matrix
    entries: along any direction [E], the derivative of [ln_so3 (R + h E)]
    at [h = 0] is [dlnR_dR R] applied to the column-major flattening of
    [E].  This holds in both branches, for [-1 < d] and away from the
    threshold [d = 0.99999]. *)
Theorem dlnR_dR_is_jacobian (Rm E : Matrix 3 3) (k : nat) :
  -1 < 0.5 * (entry Rm 0 0 + entry Rm 1 1 + entry Rm 2 2 - 1) ->
  0.5 * (entry Rm 0 0 + entry Rm 1 1 + entry Rm 2 2 - 1) <> 0.99999 ->
  (k < 3)%nat ->
  derivable_pt_lim
    (fun h => at_ (SE3Helper.ln_so3 (Rm +m h *: E)) k) 0
    (at_ (SE3Helper.dlnR_dR Rm *v flatten3x3 E) k).
Proof.
  intros Hlow Hne Hk.
  set (d := 0.5 * (entry Rm 0 0 + entry Rm 1 1 + entry Rm 2 2 - 1)) in *.
  set (tau := 0.5 * trace3 E).
  destruct (affine_side d tau 0.99999 Hne) as [delta [Hdelta Hside]].
  unfold SE3Helper.dlnR_dR. fold d.
  destruct (Rlt_dec 0.99999 d) as [Hnear|Hgen].
  - (* near the identity: [ln_so3] is [0.5 * deltaR] *)
    apply (dlim_local _
             (fun h => 0.5 * (at_ (deltaR Rm) k + h * at_ (deltaR E) k))
             0 _ delta Hdelta).
    + intros h Hh. rewrite Rplus_0_l. unfold SE3Helper.ln_so3.
      destruct (perturbed_rotation Rm E h) as [Hd HdR].
      rewrite Hd, HdR. fold d tau.
      destruct (Rlt_dec 0.99999 (d + h * tau)) as [_|Hn];
        [|exfalso; apply Hn, (Hside h Hh); exact Hnear].
      destruct (deltaR Rm) as [a0 [a1 [a2 []]]].
      destruct (deltaR E) as [e0 [e1 [e2 []]]].
      destruct k as [|[|[|k]]]; try lia; reflexivity.
    + rewrite M3x9_component by exact Hk.
      eapply dlim_eq; [dlim|].
      destruct (deltaR E) as [e0 [e1 [e2 []]]].
      destruct k as [|[|[|k]]]; try lia; cbn; lra.
  - (* the general branch *)
    assert (Hd1 : -1 < d < 1) by lra.
    apply (dlim_local _
             (fun h => ln_factor (d + h * tau)
                       * (at_ (deltaR Rm) k + h * at_ (deltaR E) k))
             0 _ delta Hdelta).
    + intros h Hh. rewrite Rplus_0_l. unfold SE3Helper.ln_so3.
      destruct (perturbed_rotation Rm E h) as [Hd HdR].
      rewrite Hd, HdR. fold d tau.
      destruct (Rlt_dec 0.99999 (d + h * tau)) as [Hn|_];
        [pose proof (proj2 (Hside h Hh)); lra|].
      unfold ln_factor.
      destruct (deltaR Rm) as [a0 [a1 [a2 []]]].
      destruct (deltaR E) as [e0 [e1 [e2 []]]].
      destruct k as [|[|[|k]]]; try lia; reflexivity.
    + rewrite M3x9_component by exact Hk.
      eapply dlim_eq.
      * apply (dlim_mult (fun h => ln_factor (d + h * tau))
                 (fun h => at_ (deltaR Rm) k + h * at_ (deltaR E) k)).
        -- apply ln_factor_derivative. exact Hd1.
        -- dlim.
      * cbn beta. replace (d + 0 * tau) with d by ring.
        unfold ln_factor, tau.
        assert (Hs : 0 < sqrt (1 - d * d)) by (apply sqrt_lt_R0; nra).
        set (s := sqrt (1 - d * d)) in *. set (theta := acos d).
        destruct (deltaR Rm) as [a0 [a1 [a2 []]]].
        destruct (deltaR E) as [e0 [e1 [e2 []]]].
        unfold Po3.
        clearbody s theta. generalize (trace3 E). intros trE.
        replace 0.5 with (1 / 2) by lra.
        destruct k as [|[|[|k]]]; try lia; cbn; field; lra.
Qed.

Lemma dlnR_dR_is_jacobian_witness :
  -1 < 0.5 * (entry Rz90 0 0 + entry Rz90 1 1 + entry Rz90 2 2 - 1)
  /\ 0.5 * (entry Rz90 0 0 + entry Rz90 1 1 + entry Rz90 2 2 - 1) <> 0.99999
  /\ (1 < 3)%nat
  /\ derivable_pt_lim
       (fun h => at_ (SE3Helper.ln_so3 (Rz90 +m h *: Rx90)) 1) 0
       (at_ (SE3Helper.dlnR_dR Rz90 *v flatten3x3 Rx90) 1).
Proof.
  assert (H1 : -1 < 0.5 * (entry Rz90 0 0 + entry Rz90 1 1
                           + entry Rz90 2 2 - 1)) by (cbn; lra).
  assert (H2 : 0.5 * (entry Rz90 0 0 + entry Rz90 1 1 + entry Rz90 2 2 - 1)
               <> 0.99999) by (cbn; lra).
  assert (H3 : (1 < 3)%nat) by lia.
  split; [exact H1|]. split; [exact H2|]. split; [exact H3|].
  exact (dlnR_dR_is_jacobian Rz90 Rx90 1 H1 H2 H3).
Defined.

(** ** The Jacobian of the logarithm of a rigid transform *)

Lemma set_slices_stack (a b : Vector 3) :
  set_slice 3 (set_slice 0 (@Zeros 6) a) b = stack a b.
Proof. destruct_vec3 a. destruct_vec3 b. reflexivity. Qed.

Lemma ln_general_form (Rm : Matrix 3 3) (t : Vector 3) :
  let d := 0.5 * (entry Rm 0 0 + entry Rm 1 1 + entry Rm 2 2 - 1) in
  let omega := ln_factor d *s deltaR Rm in
  ~ 0.99999 < d ->
  SE3Helper.ln Rm t
  = stack omega (V_inv_of omega (ln_coefficient (acos d)) *v t).
Proof.
  intros d omega Hd. unfold SE3Helper.ln. fold d.
  destruct (Rlt_dec 0.99999 d) as [H|_]; [contradiction|].
  cbn zeta. rewrite set_slices_stack. reflexivity.
Qed.

Lemma stack_components (a b : Vector 3) (k : nat) :
  (k < 3)%nat ->
  at_ (stack a b) k = at_ a k /\ at_ (stack a b) (3 + k) = at_ b k.
Proof.
  intros Hk. destruct_vec3 a. destruct_vec3 b.
  destruct k as [|[|[|k]]]; try lia; split; reflexivity.
Qed.

Lemma dlnT_dT_blocks (A B : Matrix 3 9) (V E : Matrix 3 3) (u : Vector 3) :
  set_block 3 9 (set_block 3 0 (set_block 0 0 (@mZeros 6 12) A) B) V
  *v flatten_SE3 (mkSE3 (mkSO3 E) u)
  = stack (A *v flatten3x3 E) (B *v flatten3x3 E +v V *v u).
Proof.
  destruct A as [[a00 [a01 [a02 [a03 [a04 [a05 [a06 [a07 [a08 []]]]]]]]]]
                 [[a10 [a11 [a12 [a13 [a14 [a15 [a16 [a17 [a18 []]]]]]]]]]
                  [[a20 [a21 [a22 [a23 [a24 [a25 [a26 [a27 [a28 []]]]]]]]]]
                   []]]].
  destruct B as [[b00 [b01 [b02 [b03 [b04 [b05 [b06 [b07 [b08 []]]]]]]]]]
                 [[b10 [b11 [b12 [b13 [b14 [b15 [b16 [b17 [b18 []]]]]]]]]]
                  [[b20 [b21 [b22 [b23 [b24 [b25 [b26 [b27 [b28 []]]]]]]]]]
                   []]]].
  destruct_mat3 V. destruct_mat3 E. destruct_vec3 u.
  cbn. unfold stack, makeVector6. cbn. vsplit; ring.
Qed.

Lemma ln_coefficient_derivative (d tau : R) :
  -1 < d < 1 ->
  let theta := acos d in
  let tn := tan (theta / 2) in
  derivable_pt_lim (fun h => ln_coefficient (acos (d + h * tau))) 0
    ((theta / (2 * tn) + theta * theta * (1 + tn * tn) / (4 * (tn * tn)) - 2)
     / (theta * theta * theta) * (-1 / sqrt (1 - d * d)) * tau).
Proof.
  intros Hd theta tn. rewrite Rmult_assoc. unfold ln_coefficient.
  pose proof (acos_bound_lt d Hd) as Hth. fold theta in Hth.
  assert (Htn : 0 < tn) by (apply tan_gt_0; lra).
  assert (Hs : 0 < sqrt (1 - d * d)) by (apply sqrt_lt_R0; nra).
  assert (Hd0 : d + 0 * tau = d) by ring.
  assert (Hac : derivable_pt_lim (fun h => acos (d + h * tau)) 0
                  (-1 / sqrt (1 - d * d) * tau)).
  { eapply dlim_eq.
    - apply (dlim_acos (fun h => d + h * tau)); [dlim|]. cbn beta. lra.
    - cbn beta. rewrite Hd0. lra. }
  set (th := fun h => acos (d + h * tau)) in *.
  assert (Hth0 : th 0 = theta) by (unfold th; rewrite Hd0; reflexivity).
  change (derivable_pt_lim
            (fun h => (1 - th h / (2 * tan (th h / 2))) / (th h * th h)) 0
            ((theta / (2 * tn) + theta * theta * (1 + tn * tn)
                                 / (4 * (tn * tn)) - 2)
             / (theta * theta * theta) * (-1 / sqrt (1 - d * d) * tau))).
  generalize dependent (-1 / sqrt (1 - d * d) * tau). intros th' Hac.
  eapply dlim_eq.
  - apply (dlim_div (fun h => 1 - th h / (2 * tan (th h / 2)))
                    (fun h => th h * th h)).
    + apply (dlim_minus (fun _ => 1) (fun h => th h / (2 * tan (th h / 2))));
        [dlim|].
      apply (dlim_div th (fun h => 2 * tan (th h / 2))); [exact Hac| |].
      * apply (dlim_mult (fun _ => 2) (fun h => tan (th h / 2))); [dlim|].
        apply (dlim_tan (fun h => th h / 2)).
        -- apply (dlim_div th (fun _ => 2)); [exact Hac|dlim|lra].
        -- cbn beta. rewrite Hth0. lra.
      * cbn beta. rewrite Hth0. fold tn. lra.
    + apply (dlim_mult th th); exact Hac.
    + cbn beta. rewrite Hth0. nra.
  - cbn beta. rewrite !Hth0. fold tn. unfold Rsqr.
    clearbody tn theta. clear Hac th Hth0.
    field. repeat split; lra.
Qed.
Section V_inv_derivative.

Variables w0 w1 w2 c : R -> R.
Variables w0' w1' w2' c' : R.
Hypothesis Hw0 : derivable_pt_lim w0 0 w0'.
Hypothesis Hw1 : derivable_pt_lim w1 0 w1'.
Hypothesis Hw2 : derivable_pt_lim w2 0 w2'.
Hypothesis Hc : derivable_pt_lim c 0 c'.
Variables t u : Vector 3.

Ltac dlim_leaf :=
  lazymatch goal with
  | |- derivable_pt_lim (fun h => w0 h) _ _ => exact Hw0
  | |- derivable_pt_lim (fun h => w1 h) _ _ => exact Hw1
  | |- derivable_pt_lim (fun h => w2 h) _ _ => exact Hw2
  | |- derivable_pt_lim (fun h => c h) _ _ => exact Hc
  | |- derivable_pt_lim (fun _ => ?k) _ _ => apply dlim_const
  | |- derivable_pt_lim (fun h => h) _ _ => apply dlim_id
  | |- derivable_pt_lim (fun h => @?f h + @?g h) _ _ =>
      apply (dlim_plus f g); dlim_leaf
  | |- derivable_pt_lim (fun h => @?f h - @?g h) _ _ =>
      apply (dlim_minus f g); dlim_leaf
  | |- derivable_pt_lim (fun h => @?f h * @?g h) _ _ =>
      apply (dlim_mult f g); dlim_leaf
  | |- derivable_pt_lim (fun h => - @?f h) _ _ =>
      apply (dlim_opp f); dlim_leaf
  end.

Lemma V_inv_t_derivative (k : nat) :
  (k < 3)%nat ->
  let w := makeVector3 (w0 0) (w1 0) (w2 0) in
  let w' := makeVector3 w0' w1' w2' in
  derivable_pt_lim
    (fun h =>
       at_ (V_inv_of (makeVector3 (w0 h) (w1 h) (w2 h)) (c h)
            *v (t +v h *s u)) k)
    0
    (at_ (V_inv_of w (c 0) *v u
          -v 0.5 *s (skew w' *v t)
          +v c' *s (skew w *m skew w *v t)
          +v c 0 *s (skew w' *m skew w *v t +v skew w *m skew w' *v t)) k).
Proof.
  intros Hk w w'. subst w w'.
  destruct t as [t0 [t1 [t2 []]]]. destruct u as [u0 [u1 [u2 []]]].
  destruct k as [|[|[|k]]]; try lia; cbn;
    (eapply dlim_eq; [dlim_leaf|]); cbn beta;
    replace 0.5 with (1 / 2) by lra; field.
Qed.

End V_inv_derivative.

(** The derivative of [V_inv_of] written with the coefficients of
    [dVinvt_dR]. *)
Lemma V_inv_value_algebra (X : SE3) (eps u : Vector 3)
  (F G c0 Cd tau K1 K2 K3 K4 : R) (k : nat) :
  (k < 3)%nat ->
  K1 = - (1 / 4) * G ->
  K2 = (1 / 2) * (Cd * (F * F) + 2 * c0 * F * G) ->
  K3 = - (1 / 2) * F ->
  K4 = - c0 * (F * F) ->
  let dR := deltaR (get_matrix (get_rotation X)) in
  let t := get_translation X in
  let w := F *s dR in
  let w' := makeVector3 (G * tau * at_ dR 0 + F * at_ eps 0)
                        (G * tau * at_ dR 1 + F * at_ eps 1)
                        (G * tau * at_ dR 2 + F * at_ eps 2) in
  at_ (V_inv_of w c0 *v u
       -v 0.5 *s (skew w' *v t)
       +v (Cd * tau) *s (skew w *m skew w *v t)
       +v c0 *s (skew w' *m skew w *v t +v skew w *m skew w' *v t)) k
  = (2 * tau)
    * at_ (K1 *: skew dR *v t +v K2 *s (skew dR *m skew dR *v t)) k
    - at_ ((K3 *: skew t -m K4 *: SE3Helper.ddeltaRt_dR X) *v eps) k
    + at_ (V_inv_of w c0 *v u) k.
Proof.
  intros Hk H1 H2 H3 H4 dR t w w'. subst w w' t.
  unfold SE3Helper.ddeltaRt_dR. fold dR.
  destruct dR as [a [b [c []]]].
  destruct (get_translation X) as [t0 [t1 [t2 []]]].
  destruct eps as [e0 [e1 [e2 []]]]. destruct u as [u0 [u1 [u2 []]]].
  subst K1 K2 K3 K4. replace 0.5 with (1 / 2) by lra.
  destruct k as [|[|[|k]]]; try lia; cbn; field.
Qed.
Lemma dVinvt_dR_coefficients (d : R) :
  -1 < d < 1 ->
  let theta := acos d in
  let theta2 := theta * theta in
  let oned2 := 1 - d * d in
  let sq := sqrt oned2 in
  let cot := 1 / tan (0.5 * theta) in
  let csc2 := Po2 (1 / sin (0.5 * theta)) in
  let tn := tan (theta / 2) in
  let F := ln_factor d in
  let G := (d * theta - sq) / (2 * Po3 sq) in
  let c0 := ln_coefficient theta in
  let Cd := (theta / (2 * tn) + theta * theta * (1 + tn * tn)
                                / (4 * (tn * tn)) - 2)
            / (theta * theta * theta) * (-1 / sq) in
  - (d * theta - sq) / (8 * Po3 sq) = - (1 / 4) * G
  /\ ((theta * sq - d * theta2) * (0.5 * theta * cot - 1)
      - theta * sq * (0.25 * theta * cot + 0.125 * theta2 * csc2 - 1))
     / (4 * theta2 * Po2 oned2)
     = (1 / 2) * (Cd * (F * F) + 2 * c0 * F * G)
  /\ - 0.5 * theta / (2 * sq) = - (1 / 2) * F
  /\ (theta * cot - 2) / (8 * oned2) = - c0 * (F * F).
Proof.
  intros Hd theta theta2 oned2 sq cot csc2 tn F G c0 Cd.
  pose proof (acos_bound_lt d Hd) as Hth. fold theta in Hth.
  assert (Htn : 0 < tn) by (apply tan_gt_0; lra).
  assert (Hsin : 0 < sin (theta / 2)) by (apply sin_gt_0; lra).
  assert (Hcos : 0 < cos (theta / 2)) by (apply cos_gt_0; lra).
  assert (Hs : 0 < sq) by (apply sqrt_lt_R0; unfold oned2; nra).
  assert (Hs2 : sq * sq = 1 - d * d) by (apply sqrt_sqrt; unfold oned2; nra).
  assert (Hhalf : 0.5 * theta = theta / 2) by lra.
  assert (Hcsc : csc2 = (1 + tn * tn) / (tn * tn)).
  { unfold csc2, tn, Po2, tan. rewrite Hhalf.
    pose proof (sin2_cos2 (theta / 2)) as H. unfold Rsqr in H.
    set (x := sin (theta / 2)) in *. set (y := cos (theta / 2)) in *.
    clearbody x y. field_simplify_eq; [|lra]. cbn [pow]. nsatz. }
  subst cot F G c0 Cd. unfold ln_factor, ln_coefficient.
  fold theta oned2 sq tn. rewrite Hcsc, Hhalf. fold tn.
  unfold theta2, oned2, Po2, Po3 in *.
  clearbody tn sq theta. clear Hcsc csc2 Hsin Hcos Hhalf.
  replace 0.5 with (1 / 2) by lra. replace 0.25 with (1 / 4) by lra.
  replace 0.125 with (1 / 8) by lra.
  assert (Hd2 : 1 - d * d <> 0) by nra.
  repeat split.
  - field; lra.
  - rewrite <- Hs2. field; lra.
  - replace (-0.5) with (- (1 / 2)) by lra. field; lra.
  - rewrite <- Hs2. field; lra.
Qed.
Lemma omega_component_derivative (d tau a e : R) :
  -1 < d < 1 ->
  derivable_pt_lim (fun h => ln_factor (d + h * tau) * (a + h * e)) 0
    ((d * acos d - sqrt (1 - d * d)) / (2 * Po3 (sqrt (1 - d * d))) * tau * a
     + ln_factor d * e).
Proof.
  intros Hd. eapply dlim_eq.
  - apply (dlim_mult (fun h => ln_factor (d + h * tau)) (fun h => a + h * e));
      [apply ln_factor_derivative; exact Hd | dlim].
  - cbn beta. replace (d + 0 * tau) with d by ring. ring.
Qed.

Lemma at_vadd3 (a b : Vector 3) (k : nat) :
  at_ (a +v b) k = at_ a k + at_ b k.
Proof.
  destruct_vec3 a. destruct_vec3 b.
  destruct k as [|[|[|k]]]; cbn; try reflexivity. destruct k; cbn; lra.
Qed.

(** X15. [dlnT_dT] is the Jacobian of [ln] with respect to the flattened
    pair [(R, t)] in the general branch: for [-1 < d < 0.9999] and any
    direction [(E, u)], the derivative of [ln (R + h E, t + h u)] at
    [h = 0] is [dlnT_dT (R, t)] applied to the flattened direction. *)
Theorem dlnT_dT_is_jacobian (Rm E : Matrix 3 3) (t u : Vector 3) (k : nat) :
  -1 < 0.5 * (entry Rm 0 0 + entry Rm 1 1 + entry Rm 2 2 - 1) < 0.9999 ->
  (k < 6)%nat ->
  derivable_pt_lim
    (fun h => at_ (SE3Helper.ln (Rm +m h *: E) (t +v h *s u)) k) 0
    (at_ (SE3Helper.dlnT_dT (mkSE3 (mkSO3 Rm) t)
          *v flatten_SE3 (mkSE3 (mkSO3 E) u)) k).
Proof.
  intros Hd Hk.
  set (d := 0.5 * (entry Rm 0 0 + entry Rm 1 1 + entry Rm 2 2 - 1)) in *.
  set (tau := 0.5 * trace3 E).
  assert (Hne : d <> 0.99999) by lra.
  assert (Hd1 : -1 < d < 1) by lra.
  destruct (affine_side d tau 0.99999 Hne) as [delta [Hdelta Hside]].
  unfold SE3Helper.dlnT_dT. cbn [get_rotation get_matrix]. fold d.
  destruct (Rlt_dec 0.99999 d) as [H|_]; [lra|].
  cbn zeta. rewrite dlnT_dT_blocks.
  set (dR := deltaR Rm). set (eps := deltaR E).
  pose (w := fun (i : nat) (h : R) =>
               ln_factor (d + h * tau) * (at_ dR i + h * at_ eps i)).
  pose (c := fun h => ln_coefficient (acos (d + h * tau))).
  apply (dlim_local _
           (fun h =>
              at_ (stack (makeVector3 (w 0%nat h) (w 1%nat h) (w 2%nat h))
                     (V_inv_of
                        (makeVector3 (w 0%nat h) (w 1%nat h) (w 2%nat h))
                        (c h) *v (t +v h *s u))) k)
           0 _ delta Hdelta).
  - intros h Hh. rewrite Rplus_0_l.
    destruct (perturbed_rotation Rm E h) as [Hd' HdR].
    rewrite ln_general_form.
    + cbn zeta. rewrite Hd', HdR. fold d tau dR eps.
      replace (ln_factor (d + h * tau) *s (dR +v h *s eps))
        with (makeVector3 (w 0%nat h) (w 1%nat h) (w 2%nat h)).
      * reflexivity.
      * unfold w. destruct dR as [a0 [a1 [a2 []]]].
        destruct eps as [e0 [e1 [e2 []]]]. reflexivity.
    + rewrite Hd'. fold d tau. pose proof (proj2 (Hside h Hh)). lra.
  - assert (Hd0 : d + 0 * tau = d) by ring.
    destruct (Nat.lt_ge_cases k 3) as [Hk3|Hk3].
    + (* the rotation rows *)
      rewrite (proj1 (stack_components _ _ k Hk3)).
      apply (dlim_ext (fun h => w k h)).
      { intros h. rewrite (proj1 (stack_components _ _ k Hk3)).
        destruct k as [|[|[|k]]]; try lia; reflexivity. }
      unfold w. eapply dlim_eq;
        [apply omega_component_derivative; exact Hd1|].
      unfold SE3Helper.dlnR_dR. fold d.
      destruct (Rlt_dec 0.99999 d) as [H|_]; [lra|].
      rewrite M3x9_component by exact Hk3. fold dR eps.
      unfold ln_factor, tau.
      assert (Hs : 0 < sqrt (1 - d * d)) by (apply sqrt_lt_R0; nra).
      set (s := sqrt (1 - d * d)) in *. set (theta := acos d).
      destruct dR as [a0 [a1 [a2 []]]]. destruct eps as [e0 [e1 [e2 []]]].
      unfold Po3. clearbody s theta. generalize (trace3 E). intros trE.
      replace 0.5 with (1 / 2) by lra.
      destruct k as [|[|[|k]]]; try lia; cbn; field; lra.
    + (* the translation rows *)
      assert (Hj : (k - 3 < 3)%nat) by lia.
      replace k with (3 + (k - 3))%nat by lia.
      set (j := (k - 3)%nat) in *.
      rewrite (proj2 (stack_components _ _ j Hj)).
      apply (dlim_ext
               (fun h =>
                  at_ (V_inv_of
                         (makeVector3 (w 0%nat h) (w 1%nat h) (w 2%nat h))
                         (c h) *v (t +v h *s u)) j)).
      { intros h. rewrite (proj2 (stack_components _ _ j Hj)). reflexivity. }
      pose proof (fun i => omega_component_derivative d tau
                             (at_ dR i) (at_ eps i) Hd1) as Hw.
      pose proof (ln_coefficient_derivative d tau Hd1) as Hc.
      cbn zeta in Hc.
      destruct (dVinvt_dR_coefficients d Hd1) as [H1 [H2 [H3 H4]]].
      eapply dlim_eq;
        [exact (V_inv_t_derivative (w 0%nat) (w 1%nat) (w 2%nat) c
                  _ _ _ _ (Hw 0%nat) (Hw 1%nat) (Hw 2%nat) Hc t u j Hj)|].
      cbn zeta.
      assert (Hwv : makeVector3 (w 0%nat 0) (w 1%nat 0) (w 2%nat 0)
                    = ln_factor d *s dR).
      { unfold w. rewrite Hd0. destruct dR as [a0 [a1 [a2 []]]].
        cbn. unfold makeVector3. vsplit; ring. }
      assert (Hc0 : c 0 = ln_coefficient (acos d))
        by (unfold c; rewrite Hd0; reflexivity).
      rewrite Hwv, Hc0.
      rewrite (at_vadd3 (SE3Helper.dVinvt_dR _ *v flatten3x3 E)).
      unfold SE3Helper.dVinvt_dR.
      cbn [get_rotation get_matrix get_translation]. fold d.
      destruct (Rlt_dec 0.9999 d) as [H|_]; [lra|].
      cbv beta iota zeta.
      rewrite M3x9_component by exact Hj.
      etransitivity;
        [exact (V_inv_value_algebra (mkSE3 (mkSO3 Rm) t) eps u
                  _ _ _ _ tau _ _ _ _ j Hj H1 H2 H3 H4)|].
      unfold tau. replace (2 * (0.5 * trace3 E)) with (trace3 E) by lra.
      reflexivity.
Qed.

Lemma dlnT_dT_is_jacobian_witness :
  -1 < 0.5 * (entry Rz90 0 0 + entry Rz90 1 1 + entry Rz90 2 2 - 1) < 0.9999
  /\ (4 < 6)%nat
  /\ derivable_pt_lim
       (fun h =>
          at_ (SE3Helper.ln (Rz90 +m h *: Rx90)
                 (makeVector3 1 2 3 +v h *s makeVector3 0 1 0)) 4) 0
       (at_ (SE3Helper.dlnT_dT pose_a *v flatten_SE3 pose_b) 4).
Proof.
  assert (H1 : -1 < 0.5 * (entry Rz90 0 0 + entry Rz90 1 1
                           + entry Rz90 2 2 - 1) < 0.9999) by (cbn; lra).
  assert (H2 : (4 < 6)%nat) by lia.
  split; [exact H1|]. split; [exact H2|].
  exact (dlnT_dT_is_jacobian Rz90 Rx90 (makeVector3 1 2 3)
           (makeVector3 0 1 0) 4 H1 H2).
Defined.

(** ** The logarithm in the translation, the inverse and the angle *)

Lemma ln_stack_form (Rm : Matrix 3 3) :
  exists V : Matrix 3 3,
    (forall t', SE3Helper.ln Rm t' = stack (SE3Helper.ln_so3 Rm) (V *v t'))
    /\ forall (A B : Matrix 3 9) (X : SE3),
         get_matrix (get_rotation X) = Rm ->
         SE3Helper.dlnR_dR Rm = A -> SE3Helper.dVinvt_dR X = B ->
         SE3Helper.dlnT_dT X
         = set_block 3 9 (set_block 3 0 (set_block 0 0 (@mZeros 6 12) A) B) V.
Proof.
  unfold SE3Helper.ln, SE3Helper.ln_so3, SE3Helper.dlnT_dT.
  destruct (Rlt_dec 0.99999
              (0.5 * (entry Rm 0 0 + entry Rm 1 1 + entry Rm 2 2 - 1)))
    as [H|H] eqn:Hdec; cbn zeta.
  - eexists. split.
    + intros t'. rewrite set_slices_stack. reflexivity.
    + intros A B X HX HA HB. rewrite HX, Hdec, HA, HB. reflexivity.
  - eexists. split.
    + intros t'. rewrite set_slices_stack. reflexivity.
    + intros A B X HX HA HB. rewrite HX, Hdec, HA, HB. reflexivity.
Qed.

(** X16. [ln] is affine in the translation and the last three columns of
    [dlnT_dT] carry its linear part: for every matrix [R], in both
    branches, [ln (R, t + u) - ln (R, t)] is [dlnT_dT (R, t)] applied to
    the flattened pair [(0, u)]. *)
Theorem dlnT_dT_translation_exact (Rm : Matrix 3 3) (t u : Vector 3) :
  SE3Helper.ln Rm (t +v u) -v SE3Helper.ln Rm t
  = SE3Helper.dlnT_dT (mkSE3 (mkSO3 Rm) t)
    *v flatten_SE3 (mkSE3 (mkSO3 mZeros) u).
Proof.
  destruct (ln_stack_form Rm) as [V [Hln HJ]].
  rewrite (HJ _ _ (mkSE3 (mkSO3 Rm) t) eq_refl eq_refl eq_refl).
  rewrite dlnT_dT_blocks, !Hln.
  generalize (SE3Helper.ln_so3 Rm). intros w.
  generalize (SE3Helper.dlnR_dR Rm). intros A.
  generalize (SE3Helper.dVinvt_dR (mkSE3 (mkSO3 Rm) t)). intros B.
  destruct A as [[a00 [a01 [a02 [a03 [a04 [a05 [a06 [a07 [a08 []]]]]]]]]]
                 [[a10 [a11 [a12 [a13 [a14 [a15 [a16 [a17 [a18 []]]]]]]]]]
                  [[a20 [a21 [a22 [a23 [a24 [a25 [a26 [a27 [a28 []]]]]]]]]]
                   []]]].
  destruct B as [[b00 [b01 [b02 [b03 [b04 [b05 [b06 [b07 [b08 []]]]]]]]]]
                 [[b10 [b11 [b12 [b13 [b14 [b15 [b16 [b17 [b18 []]]]]]]]]]
                  [[b20 [b21 [b22 [b23 [b24 [b25 [b26 [b27 [b28 []]]]]]]]]]
                   []]]].
  destruct_mat3 V. destruct_vec3 w. destruct_vec3 t. destruct_vec3 u.
  cbn. unfold stack, makeVector6. cbn. vsplit; ring.
Qed.

Lemma inverse_V_inv_algebra (w t : Vector 3) (theta a b c : R) :
  dot w w = theta * theta ->
  1 - a - theta * theta * (1 / 2 * b - a * c) = 0 ->
  b - 1 / 2 * a - theta * theta * (b * c) = 0 ->
  V_inv_of (vneg w) c
  *v vneg (T (Identity +m a *: skew w +m b *: (skew w *m skew w)) *v t)
  = vneg (V_inv_of w c *v t).
Proof.
  destruct w as [x [y [z []]]]. destruct t as [t0 [t1 [t2 []]]].
  unfold V_inv_of. replace 0.5 with (1 / 2) by lra.
  cbn. intros Hw E1 E2. rewrite <- Hw in E1, E2.
  set (e1 := 1 - a - (x * x + (y * y + (z * z + 0))) * (1 / 2 * b - a * c))
    in *.
  set (e2 := b - 1 / 2 * a - (x * x + (y * y + (z * z + 0))) * (b * c)) in *.
  set (wt := x * t0 + y * t1 + z * t2).
  set (ww := x * x + y * y + z * z).
  vsplit; apply Rminus_diag_uniq.
  - match goal with
    | |- ?L - ?Rr = 0 =>
        replace (L - Rr)
          with (- (e1 * (y * t2 - z * t1) + e2 * (x * wt - t0 * ww)))
          by (unfold e1, e2, wt, ww; field)
    end.
    rewrite E1, E2. ring.
  - match goal with
    | |- ?L - ?Rr = 0 =>
        replace (L - Rr)
          with (- (e1 * (z * t0 - x * t2) + e2 * (y * wt - t1 * ww)))
          by (unfold e1, e2, wt, ww; field)
    end.
    rewrite E1, E2. ring.
  - match goal with
    | |- ?L - ?Rr = 0 =>
        replace (L - Rr)
          with (- (e1 * (x * t1 - y * t0) + e2 * (z * wt - t2 * ww)))
          by (unfold e1, e2, wt, ww; field)
    end.
    rewrite E1, E2. ring.
Qed.

Lemma inverse_coefficients (theta : R) :
  0 < theta < PI ->
  let a := sin theta / theta in
  let b := (1 - cos theta) / (theta * theta) in
  let c := ln_coefficient theta in
  1 - a - theta * theta * (1 / 2 * b - a * c) = 0
  /\ b - 1 / 2 * a - theta * theta * (b * c) = 0.
Proof.
  intros Hth a b c.
  assert (Hsin : 0 < sin (theta / 2)) by (apply sin_gt_0; lra).
  assert (Hcos : 0 < cos (theta / 2)) by (apply cos_gt_0; lra).
  pose proof (sin2_cos2 (theta / 2)) as H1. unfold Rsqr in H1.
  assert (Hs : sin theta = 2 * sin (theta / 2) * cos (theta / 2)).
  { rewrite <- sin_2a. f_equal. field. }
  assert (Hc : cos theta
               = cos (theta / 2) * cos (theta / 2)
                 - sin (theta / 2) * sin (theta / 2)).
  { rewrite <- cos_2a. f_equal. field. }
  subst a b c. unfold ln_coefficient, tan. rewrite Hs, Hc.
  set (x := sin (theta / 2)) in *. set (y := cos (theta / 2)) in *.
  clearbody x y.
  split; (field_simplify_eq; [|repeat split; lra]); cbn [pow]; nsatz.
Qed.

(** X17. In the general branch the logarithm of the inverse is the negated
    logarithm: for a rotation [R] with [-1 < d <= 0.99999],
    [ln (R^T, - R^T t) = - ln (R, t)]. *)
Theorem ln_of_inverse (X : SE3) :
  let Rm := get_matrix (get_rotation X) in
  let Xi := SE3_inverse X in
  is_rigid X ->
  -1 < 0.5 * (entry Rm 0 0 + entry Rm 1 1 + entry Rm 2 2 - 1) <= 0.99999 ->
  SE3Helper.ln (get_matrix (get_rotation Xi)) (get_translation Xi)
  = vneg (SE3Helper.ln Rm (get_translation X)).
Proof.
  intros Rm Xi Hrot Hd. unfold is_rigid in Hrot. fold Rm in Hrot.
  subst Xi. unfold SE3_inverse, SO3_inverse, SO3_act.
  cbn [get_rotation get_matrix get_translation]. fold Rm.
  generalize (get_translation X). intros t.
  pose proof (ln_angle_bounds Rm Hd) as Hth.
  pose proof (ln_omega_norm Rm Hrot Hd) as Hnorm.
  pose proof (rodrigues_of_ln Rm Hrot Hd) as Hexp.
  cbn zeta in Hth, Hnorm, Hexp.
  assert (HdT : 0.5 * (entry (T Rm) 0 0 + entry (T Rm) 1 1
                       + entry (T Rm) 2 2 - 1)
                = 0.5 * (entry Rm 0 0 + entry Rm 1 1 + entry Rm 2 2 - 1)).
  { destruct_mat3 Rm. reflexivity. }
  assert (HdR : deltaR (T Rm) = vneg (deltaR Rm)).
  { destruct_mat3 Rm. unfold deltaR, makeVector3. cbn. vsplit; ring. }
  rewrite !ln_general_form by (rewrite ?HdT; lra).
  cbn zeta. rewrite HdT, HdR.
  set (d := 0.5 * (entry Rm 0 0 + entry Rm 1 1 + entry Rm 2 2 - 1)) in *.
  fold (ln_factor d) in Hnorm, Hexp.
  set (theta := acos d) in *.
  set (omega := ln_factor d *s deltaR Rm) in *.
  assert (Hneg : ln_factor d *s vneg (deltaR Rm) = vneg omega).
  { subst omega. destruct (deltaR Rm) as [a0 [a1 [a2 []]]].
    cbn. vsplit; ring. }
  rewrite Hneg.
  unfold SO3_exp in Hexp. rewrite Hnorm, sqrt_square in Hexp by lra.
  destruct (Req_dec_T theta 0) as [H0|_]; [lra|].
  injection Hexp as HR. rewrite <- HR.
  destruct (inverse_coefficients theta Hth) as [E1 E2].
  rewrite (inverse_V_inv_algebra omega t theta _ _ _ Hnorm E1 E2).
  generalize (V_inv_of omega (ln_coefficient theta) *v t). intros rho.
  destruct_vec3 omega. destruct_vec3 rho.
  unfold stack, makeVector6. cbn. reflexivity.
Qed.

Lemma ln_of_inverse_witness :
  is_rigid pose_a
  /\ -1 < 0.5 * (entry Rz90 0 0 + entry Rz90 1 1 + entry Rz90 2 2 - 1)
     <= 0.99999
  /\ SE3Helper.ln (get_matrix (get_rotation (SE3_inverse pose_a)))
       (get_translation (SE3_inverse pose_a))
     = vneg (SE3Helper.ln Rz90 (makeVector3 1 2 3)).
Proof.
  assert (Hd : -1 < 0.5 * (entry Rz90 0 0 + entry Rz90 1 1 + entry Rz90 2 2 - 1)
               <= 0.99999) by (cbn; lra).
  split; [exact is_rigid_pose_a|]. split; [exact Hd|].
  exact (ln_of_inverse pose_a is_rigid_pose_a Hd).
Defined.

(** X18. The length of the rotation logarithm is the rotation angle: for a
    rotation [R] with [-1 < d <= 0.99999], the squared norm of [ln_so3 R]
    is [acos(d)^2], and the angle lies in [(0, pi)]. *)
Theorem ln_so3_norm_is_angle (Rm : Matrix 3 3) :
  let d := 0.5 * (entry Rm 0 0 + entry Rm 1 1 + entry Rm 2 2 - 1) in
  is_rotation Rm -> -1 < d <= 0.99999 ->
  dot (SE3Helper.ln_so3 Rm) (SE3Helper.ln_so3 Rm) = acos d * acos d
  /\ 0 < acos d < PI.
Proof.
  intros d Hrot Hd. split; [|exact (ln_angle_bounds Rm Hd)].
  unfold SE3Helper.ln_so3. fold d.
  destruct (Rlt_dec 0.99999 d) as [H|_]; [lra|].
  exact (ln_omega_norm Rm Hrot Hd).
Qed.

Lemma ln_so3_norm_is_angle_witness :
  is_rotation Rz90
  /\ -1 < 0.5 * (entry Rz90 0 0 + entry Rz90 1 1 + entry Rz90 2 2 - 1)
     <= 0.99999
  /\ 0 < acos (0.5 * (entry Rz90 0 0 + entry Rz90 1 1 + entry Rz90 2 2 - 1))
     < PI.
Proof.
  assert (Hd : -1 < 0.5 * (entry Rz90 0 0 + entry Rz90 1 1 + entry Rz90 2 2 - 1)
               <= 0.99999) by (cbn; lra).
  split; [exact is_rigid_pose_a|]. split; [exact Hd|].
  exact (proj2 (ln_so3_norm_is_angle Rz90 is_rigid_pose_a Hd)).
Defined.

(** ** The similarity transform of a point *)

(** X19. The [Sim3] overload of [transform] with unit scale is the rigid
    [transform], and for a rotation and a scale [s <> 0] it is undone by
    [x = R^T (y - t) / s]. *)
Theorem transform_Sim3_inverse (Rm : SO3) (t x : Vector 3) (s : R) :
  transform_Sim3 (mkSim3 Rm t 1) x = transform (mkSE3 Rm t) x
  /\ (is_rotation (get_matrix Rm) -> s <> 0 ->
      (1 / s) *s SO3_act (SO3_inverse Rm)
                   (transform_Sim3 (mkSim3 Rm t s) x -v t)
      = x).
Proof.
  unfold transform_Sim3, transform, SO3_act, SO3_inverse.
  cbn [Sim3_get_scale Sim3_get_rotation Sim3_get_translation
       get_rotation get_translation get_matrix].
  destruct Rm as [M]. cbn [get_matrix]. split.
  - destruct_mat3 M. destruct_vec3 t. destruct_vec3 x. cbn. vsplit; ring.
  - intros [Ho _] Hs. destruct_mat3 M. destruct_vec3 t. destruct_vec3 x.
    cbn in Ho. injection Ho as H1 H2 H3 H4 H5 H6 H7 H8 H9.
    cbn. vsplit; (field_simplify_eq; [|exact Hs]); cbn [pow]; nsatz.
Qed.

Lemma transform_Sim3_inverse_witness :
  is_rotation Rz90 /\ 2 <> 0
  /\ (1 / 2) *s SO3_act (SO3_inverse (mkSO3 Rz90))
                  (transform_Sim3 (mkSim3 (mkSO3 Rz90) (makeVector3 1 2 3) 2)
                     (makeVector3 0 1 0) -v makeVector3 1 2 3)
     = makeVector3 0 1 0.
Proof.
  assert (H2 : 2 <> 0) by lra.
  split; [exact is_rigid_pose_a|]. split; [exact H2|].
  exact (proj2 (transform_Sim3_inverse (mkSO3 Rz90) (makeVector3 1 2 3)
                  (makeVector3 0 1 0) 2) is_rigid_pose_a H2).
Defined.
